(** * graphrag-notes ML worker: entity extraction and embedding lifecycle

    A shallow embedding of [python/src/ml_worker/entities.py],
    [python/src/ml_worker/embeddings.py] and the [/health] handler of
    [python/src/ml_worker/server.py], with the properties the
    specification states about them.

    Python [str] values are sequences of Unicode code points; offsets
    count code points.  The Unicode character database that the [re]
    module consults (word characters, digits, white space, case folding,
    [str.lower]) is not part of the repository: it is taken as the
    interface [CharDB], constrained only to agree with the ASCII table on
    the word-character status of ASCII code points.  [AsciiDB] is the
    instance used to run the model on ASCII text. *)

From Stdlib Require Import String Ascii List Arith NArith ZArith Bool Lia.
From Stdlib Require Import PrimFloat.
From Stdlib Require Import Sorted Permutation.
From stdpp Require Import gmap strings list.
Import ListNotations.

Set Default Goal Selector "!".

(** ** Results of running Python code *)

Inductive exn : Type :=
| re_error (msg : string)           (* re.error raised by re.compile *)
| library_error (msg : string)      (* raised inside sentence-transformers *)
| HTTPException (status_code : nat) (detail : string).

(** [str(e)] *)
Definition exn_str (e : exn) : string :=
  match e with
  | re_error msg => msg
  | library_error msg => msg
  | HTTPException _ detail => detail
  end.

Inductive result (A : Type) : Type :=
| Ok (a : A)                        (* normal return *)
| Raise (e : exn)                   (* a Python exception escapes *)
| Stuck (why : string).             (* outside the model: fuel or syntax *)
Arguments Ok {A} a.
Arguments Raise {A} e.
Arguments Stuck {A} why.

Definition bind {A B : Type} (c : result A) (f : A -> result B) : result B :=
  match c with
  | Ok a => f a
  | Raise e => Raise e
  | Stuck w => Stuck w
  end.

Declare Scope result_scope.
Delimit Scope result_scope with result.
Notation "x <- c ;; k" := (bind c (fun x => k))
  (at level 100, c at next level, right associativity) : result_scope.
Local Open Scope result_scope.

(** [for x in xs: st = body(st, x)] where the body may raise. *)
Fixpoint for_each {S X : Type} (body : S -> X -> result S) (xs : list X) (st : S)
  : result S :=
  match xs with
  | [] => Ok st
  | x :: xs' => st' <- body st x ;; for_each body xs' st'
  end.

(** ** Code points and strings *)

Abbreviation char := N (only parsing).
Abbreviation str := (list N) (only parsing).

Definition ord (a : ascii) : char := N_of_ascii a.

(** A Rocq string literal read as the Python [str] with the same
    (ASCII) characters. *)
Definition py (s : string) : str := List.map ord (list_ascii_of_string s).

(** [t[a:b]] for non-negative [a], [b]: Python clamps both to [len(t)]
    and yields the empty string when [b <= a]. *)
Definition slice (t : str) (a b : nat) : str := take (b - a) (drop a t).

Definition in_range (lo hi c : N) : bool := ((lo <=? c) && (c <=? hi))%N.

Definition ascii_isdigit (c : char) : bool := in_range 48 57 c.
Definition ascii_isupper (c : char) : bool := in_range 65 90 c.
Definition ascii_islower (c : char) : bool := in_range 97 122 c.
Definition ascii_isword (c : char) : bool :=
  ascii_isdigit c || ascii_isupper c || ascii_islower c || (c =? 95)%N.
Definition ascii_isspace (c : char) : bool :=
  in_range 9 13 c || in_range 28 32 c.
Definition ascii_tolower (c : char) : char :=
  if ascii_isupper c then (c + 32)%N else c.

(** The part of the Unicode database that [re] with [re.IGNORECASE] on
    [str] patterns, and [str.lower], consult. *)
Class CharDB : Type := {
  isword : char -> bool;                (* \w, which decides \b *)
  isdigit : char -> bool;               (* \d *)
  isspace : char -> bool;               (* \s *)
  lit_ignore : char -> char -> bool;    (* pattern literal against a text
                                           character, ignoring case *)
  lower : str -> str;                   (* str.lower() *)
  isword_ascii : forall c, (c < 128)%N -> isword c = ascii_isword c
}.

#[export] Instance AsciiDB : CharDB := {|
  isword := ascii_isword;
  isdigit := ascii_isdigit;
  isspace := ascii_isspace;
  lit_ignore := fun c x => (ascii_tolower c =? ascii_tolower x)%N;
  lower := List.map ascii_tolower;
  isword_ascii := fun c _ => eq_refl
|}.

(** ** Regular expressions: the fragment of [re] syntax that PATTERNS uses *)

Inductive citem : Type :=
| CLit (c : char)                   (* LITERAL *)
| CRange (lo hi : char)             (* RANGE inside [...] *)
| CDigit                            (* CATEGORY_DIGIT, \d *)
| CSpace.                           (* CATEGORY_SPACE, \s *)

(** A one-character matcher: LITERAL or IN with its items. *)
Definition cset : Type := list citem.

Inductive regex : Type :=
| Eps                               (* empty sequence *)
| Chr (s : cset)                    (* one character *)
| Bound                             (* AT_BOUNDARY, \b *)
| Cat (r1 r2 : regex)               (* sequence *)
| Alt (r1 r2 : regex)               (* BRANCH, a|b *)
| Group (r : regex)                 (* SUBPATTERN, ( ... ) *)
| Rep (s : cset) (lo : nat) (hi : option nat).  (* greedy repeat of one
                                       character, hi = None: no bound *)

Definition seq_of (items : list regex) : regex :=
  match rev items with
  | [] => Eps
  | last :: before => fold_left (fun acc r => Cat r acc) before last
  end.

(** *** Parsing pattern strings (after [sre_parse]) *)

Definition is_digit_char (a : ascii) : bool := ascii_isdigit (ord a).
Definition is_letter_char (a : ascii) : bool :=
  ascii_isupper (ord a) || ascii_islower (ord a).

Fixpoint take_digits (inp : list ascii) : list ascii * list ascii :=
  match inp with
  | a :: rest =>
      if is_digit_char a
      then let (ds, r) := take_digits rest in (a :: ds, r)
      else ([], inp)
  | [] => ([], [])
  end.

Definition int_of (ds : list ascii) : nat :=
  fold_left (fun n a => 10 * n + (nat_of_ascii a - 48)) ds 0.

(** The text after an opening brace, read as a repeat count [{lo}],
    [{lo,}], [{,hi}] or [{lo,hi}]; [None] when it is not one, in which
    case the brace is an ordinary character. *)
Definition parse_brace (inp : list ascii)
  : option (nat * option nat * list ascii) :=
  match inp with
  | "}"%char :: _ => None
  | _ =>
      let (lo, r1) := take_digits inp in
      let '(hi, r2) :=
        match r1 with
        | ","%char :: r => take_digits r
        | _ => (lo, r1)
        end in
      match r2 with
      | "}"%char :: r3 =>
          Some (match lo with [] => 0 | _ => int_of lo end,
                match hi with [] => None | _ => Some (int_of hi) end,
                r3)
      | _ => None
      end
  end.

(** A backslash escape outside a character set. *)
Definition escape (c : ascii) : result regex :=
  match c with
  | "b"%char => Ok Bound
  | "d"%char => Ok (Chr [CDigit])
  | "s"%char => Ok (Chr [CSpace])
  | _ =>
      if is_letter_char c || is_digit_char c
      then Stuck "escape outside the modelled fragment"
      else Ok (Chr [CLit (ord c)])
  end.

(** The items of a character set, after the opening bracket. *)
Fixpoint parse_set (inp : list ascii) (acc : cset) : result (cset * list ascii) :=
  match inp with
  | [] => Raise (re_error "unterminated character set")
  | "]"%char :: rest =>
      match acc with
      | [] => parse_set rest [CLit (ord "]")]
      | _ => Ok (rev acc, rest)
      end
  | "\"%char :: _ | "^"%char :: _ | "["%char :: _ =>
      Stuck "character set outside the modelled fragment"
  | a :: "-"%char :: "]"%char :: rest =>
      Ok (rev (CLit (ord "-") :: CLit (ord a) :: acc), rest)
  | _ :: "-"%char :: "\"%char :: _ =>
      Stuck "character set outside the modelled fragment"
  | a :: "-"%char :: b :: rest =>
      if (ord b <? ord a)%N
      then Raise (re_error "bad character range")
      else parse_set rest (CRange (ord a) (ord b) :: acc)
  | a :: rest => parse_set rest (CLit (ord a) :: acc)
  end.

(** Apply a quantifier to the last item parsed. *)
Definition repeat_last (acc : list regex) (lo : nat) (hi : option nat)
  : result (list regex) :=
  match acc with
  | [] | Bound :: _ => Raise (re_error "nothing to repeat")
  | Rep _ _ _ :: _ => Raise (re_error "multiple repeat")
  | Chr s :: acc' =>
      match hi with
      | Some h =>
          if h <? lo
          then Raise (re_error "min repeat greater than max repeat")
          else Ok (Rep s lo hi :: acc')
      | None => Ok (Rep s lo hi :: acc')
      end
  | _ => Stuck "repeat of more than one character"
  end.

Definition lazy_or_possessive (inp : list ascii) : bool :=
  match inp with
  | "?"%char :: _ | "+"%char :: _ => true
  | _ => false
  end.

Fixpoint parse_sub (fuel : nat) (inp : list ascii) {struct fuel}
  : result (regex * list ascii) :=
  match fuel with
  | 0 => Stuck "out of fuel"
  | S f =>
      p <- parse_seq f inp [] ;;
      let '(items, rest) := p in
      match rest with
      | "|"%char :: rest' =>
          q <- parse_sub f rest' ;;
          let '(r2, rest'') := q in
          Ok (Alt (seq_of items) r2, rest'')
      | _ => Ok (seq_of items, rest)
      end
  end
with parse_seq (fuel : nat) (inp : list ascii) (acc : list regex) {struct fuel}
  : result (list regex * list ascii) :=
  match fuel with
  | 0 => Stuck "out of fuel"
  | S f =>
      let quantify lo hi rest :=
        if lazy_or_possessive rest
        then Stuck "quantifier outside the modelled fragment"
        else acc' <- repeat_last acc lo hi ;; parse_seq f rest acc' in
      match inp with
      | [] => Ok (rev acc, [])
      | "|"%char :: _ | ")"%char :: _ => Ok (rev acc, inp)
      | "\"%char :: [] => Raise (re_error "bad escape (end of pattern)")
      | "\"%char :: c :: rest =>
          code <- escape c ;; parse_seq f rest (code :: acc)
      | "["%char :: rest =>
          p <- parse_set rest [] ;;
          let '(s, rest') := p in
          parse_seq f rest' (Chr s :: acc)
      | "("%char :: "?"%char :: _ =>
          Stuck "group extension outside the modelled fragment"
      | "("%char :: rest =>
          p <- parse_sub f rest ;;
          let '(r, rest') := p in
          match rest' with
          | ")"%char :: rest'' => parse_seq f rest'' (Group r :: acc)
          | _ => Raise (re_error "missing ), unterminated subpattern")
          end
      | "?"%char :: rest => quantify 0 (Some 1) rest
      | "+"%char :: rest => quantify 1 None rest
      | "{"%char :: rest =>
          match parse_brace rest with
          | Some (lo, hi, rest') => quantify lo hi rest'
          | None => parse_seq f rest (Chr [CLit (ord "{")] :: acc)
          end
      | "*"%char :: _ | "."%char :: _ | "^"%char :: _ | "$"%char :: _ =>
          Stuck "syntax outside the modelled fragment"
      | a :: rest => parse_seq f rest (Chr [CLit (ord a)] :: acc)
      end
  end.

(** [re.compile(pattern, re.IGNORECASE)] *)
Definition re_compile (pattern : string) : result regex :=
  let inp := list_ascii_of_string pattern in
  p <- parse_sub (2 * length inp + 2) inp ;;
  let '(r, rest) := p in
  match rest with
  | [] => Ok r
  | _ => Raise (re_error "unbalanced parenthesis")
  end.

(** ** Matching (after [_sre]: backtracking, first alternative first,
       greedy repeats) *)

Section Matching.
Context {DB : CharDB}.

Definition codes (lo hi : char) : list char :=
  List.map N.of_nat (seq (N.to_nat lo) (N.to_nat hi + 1 - N.to_nat lo)).

(** Under IGNORECASE a range matches what one of its characters, taken
    as a literal, matches. *)
Definition item_match (x : char) (it : citem) : bool :=
  match it with
  | CLit c => lit_ignore c x
  | CRange lo hi => existsb (fun c => lit_ignore c x) (codes lo hi)
  | CDigit => isdigit x
  | CSpace => isspace x
  end.

Definition cset_match (s : cset) (x : char) : bool :=
  existsb (item_match x) s.

Variable text : str.

(** Is there a word character at offset [i]?  Outside the string there
    is none. *)
Definition word_at (i : nat) : bool :=
  match text !! i with
  | Some x => isword x
  | None => false
  end.

(** [\b] at offset [i]: exactly one of the characters before and at
    [i] is a word character. *)
Definition at_boundary (i : nat) : bool :=
  xorb (match i with 0 => false | S j => word_at j end) (word_at i).

(** How many characters of [l], at most [limit], match [s] in a row. *)
Fixpoint run (s : cset) (l : str) (limit : nat) : nat :=
  match limit, l with
  | S n, x :: l' => if cset_match s x then S (run s l' n) else 0
  | _, _ => 0
  end.

(** After a greedy repeat that consumed [c] characters from [i]: try
    the rest of the pattern, giving characters back one at a time but
    never fewer than [lo]. *)
Fixpoint backoff (k : nat -> option nat) (i lo c : nat) : option nat :=
  if c <? lo then None
  else match k (i + c) with
       | Some e => Some e
       | None =>
           match c with
           | 0 => None
           | S c' => backoff k i lo c'
           end
       end.

(** [m r i k]: match [r] at offset [i], then the rest of the pattern
    [k] from where [r] stopped; [None] makes the caller backtrack. *)
Fixpoint m (r : regex) (i : nat) (k : nat -> option nat) : option nat :=
  match r with
  | Eps => k i
  | Chr s =>
      match text !! i with
      | Some x => if cset_match s x then k (S i) else None
      | None => None
      end
  | Bound => if at_boundary i then k i else None
  | Cat r1 r2 => m r1 i (fun j => m r2 j k)
  | Alt r1 r2 =>
      match m r1 i k with
      | Some e => Some e
      | None => m r2 i k
      end
  | Group r' => m r' i k
  | Rep s lo hi =>
      let limit := match hi with Some h => h | None => length text end in
      backoff k i lo (run s (drop i text) limit)
  end.

(** The end of a successful top-level match; with [must_advance] an
    empty match at the starting offset does not count. *)
Definition accept (must_advance : bool) (s e : nat) : option nat :=
  if must_advance && (e =? s) then None else Some e.

(** [n + 1] starting offsets from [s] on, leftmost first. *)
Fixpoint search_from (r : regex) (n s : nat) (must_advance : bool)
  : option (nat * nat) :=
  match m r s (accept must_advance s) with
  | Some e => Some (s, e)
  | None =>
      match n with
      | 0 => None
      | S n' => search_from r n' (S s) false
      end
  end.

Definition search (r : regex) (pos : nat) (must_advance : bool)
  : option (nat * nat) :=
  search_from r (length text - pos) pos must_advance.

(** The scanner behind [finditer]: each search resumes where the last
    match ended, and after an empty match the next one must advance. *)
Fixpoint scan (r : regex) (fuel pos : nat) (must_advance : bool)
  : result (list (nat * nat)) :=
  match fuel with
  | 0 => Stuck "out of fuel"
  | S f =>
      match search r pos must_advance with
      | None => Ok []
      | Some (s, e) =>
          rest <- scan r f e (e =? s) ;; Ok ((s, e) :: rest)
      end
  end.
End Matching.

(** A match object: the string searched and the span found. *)
Record Match : Type := { m_string : str; m_start : nat; m_end : nat }.

Definition group0 (mt : Match) : str :=
  slice (m_string mt) (m_start mt) (m_end mt).

(** [list(re.finditer(pattern, text, re.IGNORECASE))] *)
Definition finditer {DB : CharDB} (pattern : string) (text : str)
  : result (list Match) :=
  r <- re_compile pattern ;;
  spans <- scan text r (2 * length text + 2) 0 false ;;
  Ok (List.map (fun sp => {| m_string := text; m_start := sp.1; m_end := sp.2 |})
        spans).

(** ** entities.py *)

Inductive EntityType : Type :=
| PERSON | ORGANIZATION | LOCATION | DATE | TECHNOLOGY | CONCEPT.

Definition value (ty : EntityType) : string :=
  match ty with
  | PERSON => "person"
  | ORGANIZATION => "organization"
  | LOCATION => "location"
  | DATE => "date"
  | TECHNOLOGY => "technology"
  | CONCEPT => "concept"
  end.

Record ExtractedEntity : Type := {
  name : str;
  entity_type : string;
  start : nat;
  end_ : nat;
  confidence : float
}.

(** The dict literal, in insertion order. *)
Definition PATTERNS : list (EntityType * list string) := [
  (TECHNOLOGY, [
    "\b(Python|Rust|JavaScript|TypeScript|Go|Java|C\+\+|Ruby|Swift|Kotlin)\b";
    "\b(React|Vue|Angular|Next\.js|FastAPI|Django|Flask|Express)\b";
    "\b(PostgreSQL|MySQL|MongoDB|Redis|SurrealDB|Neo4j|Elasticsearch)\b";
    "\b(Docker|Kubernetes|AWS|GCP|Azure|Terraform|Ansible)\b";
    "\b(TensorFlow|PyTorch|scikit-learn|XGBoost|LangChain)\b";
    "\b(GPT-\d|Claude|LLaMA|BERT|Transformer)\b";
    "\b(API|REST|GraphQL|gRPC|WebSocket)\b"
  ]);
  (DATE, [
    "\b(\d{4}-\d{2}-\d{2})\b";
    "\b(\d{1,2}/\d{1,2}/\d{4})\b";
    "\b(January|February|March|April|May|June|July|August|September|October|November|December)\s+\d{1,2},?\s+\d{4}\b";
    "\b(Q[1-4]\s+\d{4})\b"
  ]);
  (CONCEPT, [
    "\b(machine learning|deep learning|neural network|artificial intelligence)\b";
    "\b(knowledge graph|vector search|semantic search|RAG)\b";
    "\b(microservices?|serverless|event-driven|distributed system)\b"
  ])
].

(** The dedupe key of the loop body. *)
Definition key_t : Type := str * nat * nat.

(** The two locals the loops update: [entities] and [seen]. *)
Definition scan_state : Type := list ExtractedEntity * gset key_t.

#[local] Set Warnings "-inexact-float".

(** The body of [for match in re.finditer(...)]. *)
Definition visit {DB : CharDB} (ty : EntityType) (st : scan_state) (mt : Match)
  : scan_state :=
  let '(entities, seen) := st in
  let name := group0 mt in
  let start := m_start mt in
  let end_ := m_end mt in
  let key : key_t := (lower name, start, end_) in
  if decide (key ∈ seen) then (entities, seen)
  else (entities ++ [ {| name := name;
                         entity_type := value ty;
                         start := start;
                         end_ := end_;
                         confidence := 0.8 |} ],
        seen ∪ {[ key ]}).

(** The body of [for pattern in patterns]. *)
Definition scan_pattern {DB : CharDB} (text : str) (ty : EntityType)
    (st : scan_state) (pattern : string) : result scan_state :=
  ms <- finditer pattern text ;;
  Ok (fold_left (visit ty) ms st).

(** The body of [for entity_type, patterns in PATTERNS.items()]. *)
Definition scan_category {DB : CharDB} (text : str) (st : scan_state)
    (item : EntityType * list string) : result scan_state :=
  for_each (scan_pattern text item.1) item.2 st.

(** [entities.sort(key=lambda e: e.start)]: a stable sort, here by
    insertion.  Any two stable sorts on a key agree. *)
Fixpoint insert_by_start (e : ExtractedEntity) (l : list ExtractedEntity)
  : list ExtractedEntity :=
  match l with
  | [] => [e]
  | x :: l' =>
      if start e <=? start x then e :: l else x :: insert_by_start e l'
  end.

Definition sort_by_start (l : list ExtractedEntity) : list ExtractedEntity :=
  fold_right insert_by_start [] l.

(** The three nested loops: [entities] as it stands before the sort. *)
Definition scan_all {DB : CharDB} (text : str) : result (list ExtractedEntity) :=
  st <- for_each (scan_category text) PATTERNS ([], ∅) ;;
  Ok st.1.

(** The call to [logger.debug] has no effect on the result and is left
    out. *)
Definition extract_entities {DB : CharDB} (text : str)
  : result (list ExtractedEntity) :=
  entities <- scan_all text ;;
  Ok (sort_by_start entities).

(** ** embeddings.py *)

Definition MODEL_NAME : string := "paraphrase-multilingual-mpnet-base-v2".

(** A call into the sentence-transformers library. *)
Inductive call : Type :=
| Load (model_name : string)        (* SentenceTransformer(model_name) *)
| Encode (texts : list str).        (* model.encode(texts, ...) *)

Section Embeddings.
(** The library is outside the repository: its model objects, its
    constructor, [encode] (called with [normalize_embeddings=True], rows
    turned into lists) and the dimension query are parameters. *)
Variable Model : Type.
Variable SentenceTransformer : string -> result Model.
Variable encode : Model -> list str -> result (list (list float)).
Variable get_sentence_embedding_dimension : Model -> Z.

(** The module global [_model], and the library calls made so far. *)
Record world : Type := { _model : option Model; calls : list call }.

Definition called (c : call) (w : world) : world :=
  {| _model := _model w; calls := calls w ++ [c] |}.

(** The two [logger.info] calls are left out. *)
Definition get_model (w : world) : result Model * world :=
  match _model w with
  | None =>
      match SentenceTransformer MODEL_NAME with
      | Ok mdl =>
          (Ok mdl, {| _model := Some mdl; calls := calls w ++ [Load MODEL_NAME] |})
      | Raise e => (Raise e, called (Load MODEL_NAME) w)
      | Stuck why => (Stuck why, called (Load MODEL_NAME) w)
      end
  | Some mdl => (Ok mdl, w)
  end.

Definition generate_embeddings (texts : list str) (w : world)
  : result (list (list float)) * world :=
  match texts with
  | [] => (Ok [], w)
  | _ =>
      let (r, w1) := get_model w in
      match r with
      | Ok model => (encode model texts, called (Encode texts) w1)
      | Raise e => (Raise e, w1)
      | Stuck why => (Stuck why, w1)
      end
  end.

Definition get_embedding_dimension (w : world) : result Z * world :=
  let (r, w1) := get_model w in
  (model <- r ;; Ok (get_sentence_embedding_dimension model), w1).

(** ** server.py: [GET /health] *)

Record HealthResponse : Type := {
  status : string;
  model : string;
  dimension : Z
}.

Definition health (w : world) : result HealthResponse * world :=
  let (r, w1) := get_embedding_dimension w in
  match r with
  | Ok dim =>
      (Ok {| status := "healthy"; model := "all-MiniLM-L6-v2"; dimension := dim |},
       w1)
  | Raise e => (Raise (HTTPException 503 (exn_str e)), w1)
  | Stuck why => (Stuck why, w1)
  end.
End Embeddings.

Arguments _model {Model} w.
Arguments calls {Model} w.

(** * The vocabulary of the properties *)

Section Semantics.
Context {DB : CharDB}.
Variable text : str.

(** What it means for [r] to match [text] from offset [i] to offset
    [j], whatever the order in which the matcher tries things. *)
Inductive matches : regex -> nat -> nat -> Prop :=
| M_eps i : matches Eps i i
| M_chr s i x :
    text !! i = Some x -> cset_match s x = true -> matches (Chr s) i (S i)
| M_bound i : at_boundary text i = true -> matches Bound i i
| M_cat r1 r2 i j k :
    matches r1 i j -> matches r2 j k -> matches (Cat r1 r2) i k
| M_alt_l r1 r2 i j : matches r1 i j -> matches (Alt r1 r2) i j
| M_alt_r r1 r2 i j : matches r2 i j -> matches (Alt r1 r2) i j
| M_group r i j : matches r i j -> matches (Group r) i j
| M_rep s lo hi i c :
    lo <= c ->
    (forall h, hi = Some h -> c <= h) ->
    (forall j, j < c ->
               exists x, text !! (i + j) = Some x /\ cset_match s x = true) ->
    matches (Rep s lo hi) i (i + c).
End Semantics.

(** Does every match of [r] begin, respectively end, with [\b]? *)
Fixpoint starts_bound (r : regex) : bool :=
  match r with
  | Bound => true
  | Cat r1 _ => starts_bound r1
  | Alt r1 r2 => starts_bound r1 && starts_bound r2
  | Group r' => starts_bound r'
  | _ => false
  end.

Fixpoint ends_bound (r : regex) : bool :=
  match r with
  | Bound => true
  | Cat _ r2 => ends_bound r2
  | Alt r1 r2 => ends_bound r1 && ends_bound r2
  | Group r' => ends_bound r'
  | _ => false
  end.

(** The pattern compiles, and begins and ends with [\b]. *)
Definition anchored (pattern : string) : bool :=
  match re_compile pattern with
  | Ok r => starts_bound r && ends_bound r
  | _ => false
  end.

(** The entity the loop body builds from a match. *)
Definition entity_of {DB : CharDB} (ty : EntityType) (mt : Match)
  : ExtractedEntity :=
  {| name := group0 mt;
     entity_type := value ty;
     start := m_start mt;
     end_ := m_end mt;
     confidence := 0.8 |}.

(** The dedupe key of an entity: [(name.lower(), start, end)]. *)
Definition key {DB : CharDB} (e : ExtractedEntity) : key_t :=
  (lower (name e), start e, end_ e).

(** Does [e] have the dedupe key [k]? *)
Definition has_key {DB : CharDB} (k : key_t) (e : ExtractedEntity) : bool :=
  bool_decide (key e = k).

(** The loop body seen from the entity it would record. *)
Definition record {DB : CharDB} (st : scan_state) (e : ExtractedEntity)
  : scan_state :=
  if decide (key e ∈ st.2) then st else (st.1 ++ [e], st.2 ∪ {[ key e ]}).

(** The lists [f x] for [x] in [xs], one after the other; the first
    failure is the failure of the whole, as in the loops. *)
Fixpoint gather {X Y : Type} (f : X -> result (list Y)) (xs : list X)
  : result (list Y) :=
  match xs with
  | [] => Ok []
  | x :: xs' => ys <- f x ;; rest <- gather f xs' ;; Ok (ys ++ rest)
  end.

(** The matches of one pattern, as entities of its category. *)
Definition pattern_candidates {DB : CharDB} (text : str) (ty : EntityType)
    (pattern : string) : result (list ExtractedEntity) :=
  ms <- finditer pattern text ;; Ok (List.map (entity_of ty) ms).

(** Every match the loops visit, as the entity the body would build
    from it, in the order visited and before any deduplication. *)
Definition candidates {DB : CharDB} (text : str)
  : result (list ExtractedEntity) :=
  gather (fun item => gather (pattern_candidates text item.1) item.2) PATTERNS.

(** What is known of every candidate. *)
Definition well_formed {DB : CharDB} (text : str) (e : ExtractedEntity) : Prop :=
  name e = slice text (start e) (end_ e) /\
  start e <= end_ e <= length text /\
  at_boundary text (start e) = true /\
  at_boundary text (end_ e) = true /\
  exists ty pats, In (ty, pats) PATTERNS /\ entity_type e = value ty.

(** The order of the sort key, and the entities that share one key. *)
Definition le_start (a b : ExtractedEntity) : Prop := start a <= start b.

Definition starts_at (n : nat) (e : ExtractedEntity) : bool := start e =? n.

(** An entity written down by hand, for the concrete runs. *)
Definition entity (n : string) (ty : EntityType) (s e : nat) : ExtractedEntity :=
  {| name := py n; entity_type := value ty; start := s; end_ := e;
     confidence := 0.8 |}.

(** What the loops leave in [entities] after the candidates [cs]. *)
Definition recorded {DB : CharDB} (cs : list ExtractedEntity)
  : list ExtractedEntity :=
  (fold_left record cs ([], ∅)).1.

(** * More vocabulary: spans, sizes and the origin of a candidate *)

(** Does every match of [r] take at least one character? *)
Fixpoint consumes (r : regex) : bool :=
  match r with
  | Eps | Bound => false
  | Chr _ => true
  | Cat r1 r2 => consumes r1 || consumes r2
  | Alt r1 r2 => consumes r1 && consumes r2
  | Group r' => consumes r'
  | Rep _ lo _ => 0 <? lo
  end.

(** The pattern compiles to a regex whose matches are never empty. *)
Definition never_empty (pattern : string) : bool :=
  match re_compile pattern with
  | Ok r => consumes r
  | _ => false
  end.

(** The span of an entity. *)
Definition span (e : ExtractedEntity) : nat * nat := (start e, end_ e).

(** The number of patterns in the table. *)
Definition pattern_count : nat := list_sum (List.map (fun item => length item.2) PATTERNS).

(** ** Free-standing terms *)

(** What the matcher assumes of case folding and digits: a character
    that matches an ASCII literal, case ignored, is a word character
    exactly when the literal is, and digits are word characters. *)
Definition word_faithful (DB : CharDB) : Prop :=
  (forall c x, (c < 128)%N -> lit_ignore c x = true ->
               isword x = ascii_isword c) /\
  (forall x, isdigit x = true -> isword x = true).

(** Is a character matched by [it] always, or never, a word character? *)
Definition item_word (it : citem) : option bool :=
  match it with
  | CLit c => if (c <? 128)%N then Some (ascii_isword c) else None
  | CDigit => Some true
  | _ => None
  end.

Definition cset_word (s : cset) : option bool :=
  match s with
  | [it] => item_word it
  | _ => None
  end.

(** The word/non-word shapes of the matches of [r], when finitely many
    and known: one list of booleans per shape. *)
Fixpoint profiles (r : regex) : option (list (list bool)) :=
  match r with
  | Eps | Bound => Some [[]]
  | Chr s =>
      match cset_word s with
      | Some w => Some [[w]]
      | None => None
      end
  | Cat r1 r2 =>
      match profiles r1, profiles r2 with
      | Some P1, Some P2 =>
          Some (flat_map (fun p1 => List.map (app p1) P2) P1)
      | _, _ => None
      end
  | Alt r1 r2 =>
      match profiles r1, profiles r2 with
      | Some P1, Some P2 => Some (P1 ++ P2)
      | _, _ => None
      end
  | Group r' => profiles r'
  | Rep s lo (Some hi) =>
      match cset_word s with
      | Some w => Some (List.map (repeat w) (seq lo (hi + 1 - lo)))
      | None => None
      end
  | Rep _ _ None => None
  end.

(** In the shape [pi], is the stretch from [d0] to [d1] a whole word: word
    characters only, with no word character right before or after? *)
Definition whole_word (pi : list bool) (d0 d1 : nat) : bool :=
  (d1 <=? length pi) &&
  forallb (fun k => nth k pi false) (seq d0 (d1 - d0)) &&
  ((d0 =? 0) || negb (nth (d0 - 1) pi false)) &&
  ((d1 =? length pi) || negb (nth d1 pi false)).

(** A whole word of [n] characters inside the shape [pi] is all of [pi]. *)
Definition exact_in (n : nat) (pi : list bool) : bool :=
  forallb (fun d0 => negb (whole_word pi d0 (d0 + n)) ||
                     ((d0 =? 0) && (d0 + n =? length pi)))
          (seq 0 (S (length pi))).

Definition exact_len (n : nat) (P : list (list bool)) : bool :=
  forallb (exact_in n) P.

#[global] Instance citem_eq_dec : EqDecision citem.
Proof. solve_decision. Defined.

#[global] Instance regex_eq_dec : EqDecision regex.
Proof. solve_decision. Defined.

(** The regex of a word spelled out: one literal per character. *)
Definition lit (w : str) : regex :=
  seq_of (List.map (fun c => Chr [CLit c]) w).

Fixpoint alternatives (r : regex) : list regex :=
  match r with
  | Alt r1 r2 => r1 :: alternatives r2
  | _ => [r]
  end.

(** The group [A] of a pattern of the form [\b(A)\b]. *)
Definition body_of (r : regex) : option regex :=
  match r with
  | Cat Bound (Cat (Group A) Bound) => Some A
  | _ => None
  end.

(** Is [w] one of the alternatives of a pattern [\b(...|w|...)\b]? *)
Definition offers (r : regex) (w : str) : bool :=
  match body_of r with
  | Some A => bool_decide (lit w ∈ alternatives A)
  | None => false
  end.

(** The characters of [text] from offset [a] on spell [w], case
    ignored as the matcher ignores it. *)
Definition ci_occurs {DB : CharDB} (text : str) (a : nat) (w : string) : Prop :=
  Forall2 (fun c y => lit_ignore c y = true)
          (py w) (slice text a (a + String.length w)).

(** The technology patterns, and the terms among their alternatives
    that are single words (all but C++, Next.js, scikit-learn and
    GPT-digit). *)
Definition technology_patterns : list string :=
  match PATTERNS with
  | (_, pats) :: _ => pats
  | [] => []
  end.

Definition technology_terms : list string := [
  "Python"; "Rust"; "JavaScript"; "TypeScript"; "Go"; "Java"; "Ruby";
  "Swift"; "Kotlin";
  "React"; "Vue"; "Angular"; "FastAPI"; "Django"; "Flask"; "Express";
  "PostgreSQL"; "MySQL"; "MongoDB"; "Redis"; "SurrealDB"; "Neo4j";
  "Elasticsearch";
  "Docker"; "Kubernetes"; "AWS"; "GCP"; "Azure"; "Terraform"; "Ansible";
  "TensorFlow"; "PyTorch"; "XGBoost"; "LangChain";
  "Claude"; "LLaMA"; "BERT"; "Transformer";
  "API"; "REST"; "GraphQL"; "gRPC"; "WebSocket"
].

(** [w] is a single-word alternative of the pattern [p], and no other
    alternative of [p] has a whole word of the same length inside it. *)
Definition term_ok (p w : string) : bool :=
  match re_compile p with
  | Ok r =>
      match profiles r with
      | Some P =>
          offers r (py w) && exact_len (String.length w) P &&
          forallb ascii_isword (py w) && (0 <? String.length w)
      | None => false
      end
  | _ => false
  end.

(** * More of the code: entities.py, embeddings.py and server.py *)

(** ** [extract_entities_dict] *)

(** The values the entity dicts hold. *)
Inductive pyval : Type :=
| VStr (s : str)
| VInt (n : nat)
| VFloat (f : float).

(** The dict built for one entity. *)
Definition to_dict (e : ExtractedEntity) : gmap string pyval :=
  <["name" := VStr (name e)]>
  (<["entity_type" := VStr (py (entity_type e))]>
  (<["start" := VInt (start e)]>
  (<["end" := VInt (end_ e)]>
  (<["confidence" := VFloat (confidence e)]> ∅)))).

Definition extract_entities_dict {DB : CharDB} (text : str)
  : result (list (gmap string pyval)) :=
  entities <- extract_entities text ;;
  Ok (List.map to_dict entities).

(** ** server.py: the response models and the two POST handlers *)

(** [server.ExtractedEntity], the pydantic model with the same five
    fields. *)
Record EntityModel : Type := {
  em_name : str;
  em_entity_type : str;
  em_start : nat;
  em_end : nat;
  em_confidence : float
}.

Record ExtractEntitiesResponse : Type := {
  ee_entities : list EntityModel;
  ee_count : nat
}.

Record EmbedResponse : Type := {
  emb_embeddings : list (list float);
  emb_dimension : nat;
  emb_count : nat
}.

(** [for_each] that collects results: a list comprehension whose body
    may raise. *)
Fixpoint map_result {X Y : Type} (f : X -> result Y) (xs : list X)
  : result (list Y) :=
  match xs with
  | [] => Ok []
  | x :: xs' => y <- f x ;; ys <- map_result f xs' ;; Ok (y :: ys)
  end.

Section Handlers.
Context {DB : CharDB}.
(** The text of pydantic's validation error is not in the repository. *)
Variable validation_message : gmap string pyval -> string.
Variable Model : Type.
Variable SentenceTransformer : string -> result Model.
Variable encode : Model -> list str -> result (list (list float)).
Variable get_sentence_embedding_dimension : Model -> Z.

(** [ExtractedEntity] built from the items of the dict [e], as keyword
    arguments: every field must be there; values of the
    declared types are taken as they are (coercion of other types is not
    modelled). *)
Definition EntityModel_of_dict (d : gmap string pyval) : result EntityModel :=
  match d !! "name", d !! "entity_type", d !! "start", d !! "end",
        d !! "confidence" with
  | Some (VStr n), Some (VStr t), Some (VInt s), Some (VInt e),
    Some (VFloat c) =>
      Ok {| em_name := n; em_entity_type := t; em_start := s; em_end := e;
            em_confidence := c |}
  | Some _, Some _, Some _, Some _, Some _ =>
      Stuck "coercion of field values is not modelled"
  | _, _, _, _, _ => Raise (library_error (validation_message d))
  end.

(** The handler of [POST /extract-entities]; timing and logging are
    left out. *)
Definition server_extract_entities (text : str) : result ExtractEntitiesResponse :=
  let body :=
    entities <- extract_entities_dict text ;;
    models <- map_result EntityModel_of_dict entities ;;
    Ok {| ee_entities := models; ee_count := length entities |} in
  match body with
  | Ok response => Ok response
  | Raise e => Raise (HTTPException 500 (exn_str e))
  | Stuck why => Stuck why
  end.

(** The handler of [POST /embed]. *)
Definition embed (texts : list str) (w : world Model)
  : result EmbedResponse * world Model :=
  let (r, w1) := generate_embeddings Model SentenceTransformer encode texts w in
  match r with
  | Ok embeddings =>
      (Ok {| emb_embeddings := embeddings;
             emb_dimension := match embeddings with
                              | e0 :: _ => length e0
                              | [] => 0
                              end;
             emb_count := length embeddings |},
       w1)
  | Raise e => (Raise (HTTPException 500 (exn_str e)), w1)
  | Stuck why => (Stuck why, w1)
  end.

(** The startup half of [lifespan]: preload the model. *)
Definition lifespan_startup (w : world Model) : result unit * world Model :=
  let (r, w1) := get_model Model SentenceTransformer w in
  (_ <- r ;; Ok tt, w1).

(** What reaches the process, in order of arrival. *)
Inductive request : Type :=
| Startup
| GetHealth
| PostEmbed (texts : list str)
| PostExtractEntities (text : str).

(** The world after serving one request.  A request that validation
    rejects never reaches its handler and leaves the world alone; so
    does [embed] on the empty list, so [PostEmbed] needs no case for
    it. *)
Definition serve (w : world Model) (rq : request) : world Model :=
  match rq with
  | Startup => (lifespan_startup w).2
  | GetHealth =>
      (health Model SentenceTransformer get_sentence_embedding_dimension w).2
  | PostEmbed texts => (embed texts w).2
  | PostExtractEntities _ => w
  end.
End Handlers.

(** The process before anything ran. *)
Definition fresh (Model : Type) : world Model := {| _model := None; calls := [] |}.

Definition is_encode (c : call) : bool :=
  match c with
  | Encode _ => true
  | Load _ => false
  end.

(** The entity as the response model holds it. *)
Definition to_model (e : ExtractedEntity) : EntityModel :=
  {| em_name := name e;
     em_entity_type := py (entity_type e);
     em_start := start e;
     em_end := end_ e;
     em_confidence := confidence e |}.

(** The constructions of a model among the library calls. *)
Definition loads (cs : list call) : list call :=
  List.filter (fun c => negb (is_encode c)) cs.

(** The shape of every world the handlers can reach from [fresh]: with
    a constructor that succeeds, either nothing happened or the model
    was built once, first, and only encodes followed; with one that
    fails, the model is absent and nothing was ever encoded. *)
Definition world_ok {Model : Type} (SentenceTransformer : string -> result Model)
    (w : world Model) : Prop :=
  match SentenceTransformer MODEL_NAME with
  | Ok mdl =>
      (_model w = None /\ calls w = []) \/
      (_model w = Some mdl /\
       exists rest, calls w = Load MODEL_NAME :: rest /\
                    forallb is_encode rest = true)
  | _ =>
      _model w = None /\
      Forall (fun c => c = Load MODEL_NAME) (calls w)
  end.

(** ** Free-standing phrases *)

(** The word/non-word shape of a term spelled in ASCII. *)
Definition shape_of (w : str) : list bool := List.map ascii_isword w.

(** Can an occurrence of shape [sigma] begin [d] characters into a
    match of shape [pi]?  Where the two overlap the shapes agree, and
    each end that falls inside the other is at a change of character
    class, as a word boundary needs. *)
Definition aligned (sigma pi : list bool) (d : nat) : bool :=
  forallb (fun k => if d + k <? length pi
                    then eqb (nth k sigma false) (nth (d + k) pi false)
                    else true)
          (seq 0 (length sigma)) &&
  ((d =? 0) || xorb (nth (d - 1) pi false) (nth 0 sigma false)) &&
  (if length pi - d <? length sigma
   then xorb (nth (length pi - d - 1) sigma false)
             (nth (length pi - d) sigma false)
   else true) &&
  (if d + length sigma <? length pi
   then xorb (nth (d + length sigma - 1) pi false)
             (nth (d + length sigma) pi false)
   else true).

(** The only way is to coincide. *)
Definition exact_shape (sigma pi : list bool) : bool :=
  forallb (fun d => negb (aligned sigma pi d) ||
                    ((d =? 0) && (length sigma =? length pi)))
          (seq 0 (length pi)).

(** [w] is an alternative of the pattern [p], spelled in ASCII, and
    among the shapes of [p] none lets an occurrence of [w] overlap a
    match without being it. *)
Definition phrase_ok (p w : string) : bool :=
  match re_compile p with
  | Ok r =>
      match profiles r with
      | Some P =>
          offers r (py w) && forallb (exact_shape (shape_of (py w))) P &&
          forallb (fun c => (c <? 128)%N) (py w) && (0 <? String.length w)
      | None => false
      end
  | _ => false
  end.

(** The technology terms that are not single words, GPT-digit apart. *)
Definition technology_phrases : list string :=
  ["C++"; "Next.js"; "scikit-learn"].

(** * Properties *)

(** ** The matcher *)

Section MatchingFacts.
Context {DB : CharDB}.
Variable text : str.

Lemma run_le s l limit : run s l limit <= limit.
Proof.
  revert l; induction limit as [|n IH]; intros [|x l]; simpl; try lia.
  destruct (cset_match s x); [specialize (IH l)|]; lia.
Qed.

Lemma run_matches s l limit j :
  j < run s l limit -> exists x, l !! j = Some x /\ cset_match s x = true.
Proof.
  revert l j; induction limit as [|n IH]; intros [|x l] j; simpl;
    try (intros; lia).
  destruct (cset_match s x) eqn:Hx; [|intros; lia].
  destruct j as [|j]; intros Hj.
  - exists x; auto.
  - apply (IH l j); lia.
Qed.

Lemma backoff_sound k i lo c e :
  backoff k i lo c = Some e ->
  exists c', lo <= c' /\ c' <= c /\ k (i + c') = Some e.
Proof.
  induction c as [|c IH]; simpl.
  - destruct (0 <? lo) eqn:Hlo; [discriminate|].
    apply Nat.ltb_ge in Hlo.
    destruct (k (i + 0)) eqn:Hk; [|discriminate].
    intros [= ->]. exists 0; auto.
  - destruct (S c <? lo) eqn:Hlo; [discriminate|].
    apply Nat.ltb_ge in Hlo.
    destruct (k (i + S c)) eqn:Hk.
    + intros [= ->]. exists (S c); auto.
    + intros H. destruct (IH H) as (c' & ? & ? & ?).
      exists c'; repeat split; auto.
Qed.

(** Soundness: an answer of the matcher is an answer of the rest of
    the pattern at the end of some match of [r]. *)
Lemma m_sound r : forall i k e,
  m text r i k = Some e -> exists j, matches text r i j /\ k j = Some e.
Proof.
  induction r as [|s| |r1 IH1 r2 IH2|r1 IH1 r2 IH2|r IH|s lo hi];
    intros i k e; simpl.
  - intros H. exists i; split; [constructor|exact H].
  - destruct (text !! i) as [x|] eqn:Hx; [|discriminate].
    destruct (cset_match s x) eqn:Hs; [|discriminate].
    intros H. exists (S i); split; [econstructor; eauto|exact H].
  - destruct (at_boundary text i) eqn:Hb; [|discriminate].
    intros H. exists i; split; [constructor; exact Hb|exact H].
  - intros H. apply IH1 in H as (j & Hj & H).
    apply IH2 in H as (j' & Hj' & H).
    exists j'; split; [econstructor; eauto|exact H].
  - destruct (m text r1 i k) as [e1|] eqn:H1.
    + intros [= ->]. apply IH1 in H1 as (j & Hj & H).
      exists j; split; [apply M_alt_l; exact Hj|exact H].
    + intros H. apply IH2 in H as (j & Hj & H).
      exists j; split; [apply M_alt_r; exact Hj|exact H].
  - intros H. apply IH in H as (j & Hj & H).
    exists j; split; [constructor; exact Hj|exact H].
  - intros H. apply backoff_sound in H as (c & Hlo & Hc & H).
    exists (i + c); split; [|exact H].
    constructor; [exact Hlo| |].
    + intros h ->. etransitivity; [exact Hc|apply run_le].
    + intros j Hj.
      eapply Nat.lt_le_trans in Hc; [|exact Hj].
      apply run_matches in Hc as (x & Hx & Hs).
      rewrite lookup_drop in Hx. eauto.
Qed.

(** A match is a span of the text. *)
Lemma matches_span r i j :
  matches text r i j -> i <= length text -> i <= j /\ j <= length text.
Proof.
  induction 1 as [i|s i x Hx _|i _|r1 r2 i j k _ IH1 _ IH2|r1 r2 i j _ IH
                 |r1 r2 i j _ IH|r i j _ IH|s lo hi i c _ _ Hc];
    intros Hi; try lia; auto.
  - apply lookup_lt_Some in Hx. lia.
  - destruct c as [|c]; [lia|].
    destruct (Hc c) as (x & Hx & _); [lia|].
    apply lookup_lt_Some in Hx. lia.
Qed.

Lemma search_from_sound r n s adv a e :
  search_from text r n s adv = Some (a, e) ->
  s <= a /\ a <= s + n /\ matches text r a e /\ (adv = true -> a = s -> e <> s).
Proof.
  revert s adv; induction n as [|n IH]; intros s adv; simpl.
  all: destruct (m text r s (accept adv s)) as [e'|] eqn:Hm.
  all: try discriminate.
  1,2: intros [= <- <-]; apply m_sound in Hm as (j & Hj & Hacc).
  1,2: unfold accept in Hacc; destruct (adv && (j =? s)) eqn:Hadv;
       [discriminate|]; injection Hacc as <-.
  1,2: repeat split; try lia; auto; intros -> _ ->;
       rewrite Nat.eqb_refl in Hadv; discriminate.
  intros H. apply IH in H as (? & ? & ? & _).
  repeat split; try lia; auto.
Qed.

Lemma search_sound r pos adv a e :
  pos <= length text ->
  search text r pos adv = Some (a, e) ->
  pos <= a /\ a <= e /\ e <= length text /\ matches text r a e /\
  (adv = true -> e <> pos).
Proof.
  intros Hpos H. apply search_from_sound in H as (H1 & H2 & H3 & H4).
  destruct (matches_span _ _ _ H3) as [? ?]; [lia|].
  repeat split; auto. intros Hadv ->. apply H4; auto; lia.
Qed.

(** The scanner's budget is never exhausted: every round either moves
    the position forward or arms [must_advance]. *)
Lemma scan_total r : forall fuel pos (adv : bool),
  pos <= length text ->
  2 * (length text - pos) + (if adv then 0 else 1) < fuel ->
  exists l, scan text r fuel pos adv = Ok l.
Proof.
  induction fuel as [|f IH]; intros pos adv Hpos Hf; [lia|]; simpl.
  destruct (search text r pos adv) as [[s e]|] eqn:Hs; [|eauto].
  apply search_sound in Hs as (H1 & H2 & H3 & _ & H4); [|exact Hpos].
  destruct (IH e (e =? s)) as [l ->]; [exact H3| |simpl; eauto].
  destruct (e =? s) eqn:Hes.
  - apply Nat.eqb_eq in Hes. destruct adv; [specialize (H4 eq_refl)|]; lia.
  - apply Nat.eqb_neq in Hes. destruct adv; lia.
Qed.

Lemma scan_sound r : forall fuel pos adv l,
  pos <= length text ->
  scan text r fuel pos adv = Ok l ->
  Forall (fun sp => matches text r sp.1 sp.2 /\ sp.1 <= sp.2 <= length text) l.
Proof.
  induction fuel as [|f IH]; intros pos adv l Hpos; simpl; [discriminate|].
  destruct (search text r pos adv) as [[s e]|] eqn:Hs.
  - apply search_sound in Hs as (H1 & H2 & H3 & Hm & _); [|exact Hpos].
    destruct (scan text r f e (e =? s)) as [rest| |] eqn:Hrest;
      simpl; try discriminate.
    intros [= <-]. constructor; [simpl; auto|].
    eapply IH; [|exact Hrest]. exact H3.
  - intros [= <-]. constructor.
Qed.
End MatchingFacts.

(** ** Word boundaries at both ends of a pattern *)

Lemma matches_starts_bound {DB : CharDB} text r i j :
  matches text r i j -> starts_bound r = true -> at_boundary text i = true.
Proof.
  induction 1; simpl; intros Hb; try discriminate; auto.
  - apply andb_prop in Hb as [? ?]; auto.
  - apply andb_prop in Hb as [? ?]; auto.
Qed.

Lemma matches_ends_bound {DB : CharDB} text r i j :
  matches text r i j -> ends_bound r = true -> at_boundary text j = true.
Proof.
  induction 1; simpl; intros Hb; try discriminate; auto.
  - apply andb_prop in Hb as [? ?]; auto.
  - apply andb_prop in Hb as [? ?]; auto.
Qed.

Lemma patterns_anchored :
  forall ty pats p, In (ty, pats) PATTERNS -> In p pats -> anchored p = true.
Proof.
  assert (H : forallb (fun item => forallb anchored item.2) PATTERNS = true)
    by (vm_compute; reflexivity).
  intros ty pats p Hitem Hp.
  rewrite forallb_forall in H. specialize (H _ Hitem). simpl in H.
  rewrite forallb_forall in H. auto.
Qed.

(** ** [finditer] *)

Lemma finditer_total {DB : CharDB} pattern text r :
  re_compile pattern = Ok r -> exists ms, finditer pattern text = Ok ms.
Proof.
  intros Hr. unfold finditer. rewrite Hr. cbn [bind].
  destruct (scan_total text r (2 * length text + 2) 0 false) as [l ->];
    [lia|lia|].
  cbn [bind]. eauto.
Qed.

Lemma finditer_sound {DB : CharDB} pattern text ms :
  finditer pattern text = Ok ms ->
  exists r, re_compile pattern = Ok r /\
    Forall (fun mt => m_string mt = text /\
                      matches text r (m_start mt) (m_end mt) /\
                      m_start mt <= m_end mt <= length text) ms.
Proof.
  unfold finditer.
  destruct (re_compile pattern) as [r| |]; cbn [bind]; try discriminate.
  destruct (scan text r (2 * length text + 2) 0 false) as [l| |] eqn:Hl;
    cbn [bind]; try discriminate.
  intros [= <-]. exists r; split; [reflexivity|].
  apply scan_sound in Hl; [|lia].
  induction Hl as [|sp l [? ?] _ IH]; constructor; simpl; auto.
Qed.

(** ** The three loops as one pass over the candidates *)

Lemma visit_record {DB : CharDB} ty st mt :
  visit ty st mt = record st (entity_of ty mt).
Proof. destruct st as [entities seen]. reflexivity. Qed.

Lemma fold_visit_record {DB : CharDB} ty ms : forall st,
  fold_left (visit ty) ms st = fold_left record (List.map (entity_of ty) ms) st.
Proof.
  induction ms as [|mt ms IH]; intros st; simpl; [reflexivity|].
  rewrite visit_record. apply IH.
Qed.

Lemma scan_category_gather {DB : CharDB} text ty pats : forall st,
  for_each (scan_pattern text ty) pats st =
  (cs <- gather (pattern_candidates text ty) pats ;; Ok (fold_left record cs st)).
Proof.
  induction pats as [|p pats IH]; intros st; simpl; [reflexivity|].
  unfold scan_pattern at 1, pattern_candidates at 1.
  destruct (finditer p text) as [ms| |]; cbn [bind]; try reflexivity.
  rewrite IH, fold_visit_record.
  destruct (gather (pattern_candidates text ty) pats) as [rest| |];
    cbn [bind]; try reflexivity.
  rewrite fold_left_app. reflexivity.
Qed.

Lemma scan_all_gather {DB : CharDB} text items : forall st,
  for_each (scan_category text) items st =
  (cs <- gather (fun item => gather (pattern_candidates text item.1) item.2)
           items ;;
   Ok (fold_left record cs st)).
Proof.
  induction items as [|[ty pats] items IH]; intros st; simpl; [reflexivity|].
  unfold scan_category at 1. simpl. rewrite scan_category_gather.
  destruct (gather (pattern_candidates text ty) pats) as [cs| |];
    cbn [bind]; try reflexivity.
  rewrite IH.
  destruct (gather _ items) as [rest| |]; cbn [bind]; try reflexivity.
  rewrite fold_left_app. reflexivity.
Qed.

(** [scan_all] records the candidates one by one. *)
Lemma scan_all_candidates {DB : CharDB} text :
  scan_all text =
  (cs <- candidates text ;; Ok (fold_left record cs ([], ∅)).1).
Proof.
  unfold scan_all, candidates. rewrite scan_all_gather.
  destruct (gather _ PATTERNS); reflexivity.
Qed.

Lemma gather_In {X Y : Type} (f : X -> result (list Y)) xs : forall ys y,
  gather f xs = Ok ys -> In y ys ->
  exists x zs, In x xs /\ f x = Ok zs /\ In y zs.
Proof.
  induction xs as [|x xs IH]; intros ys y; simpl.
  - intros [= <-] [].
  - destruct (f x) as [zs| |] eqn:Hx; cbn [bind]; try discriminate.
    destruct (gather f xs) as [rest| |]; cbn [bind]; try discriminate.
    intros [= <-] Hy. apply in_app_or in Hy as [Hy|Hy].
    + exists x, zs; auto.
    + destruct (IH rest y eq_refl Hy) as (x' & zs' & ? & ? & ?).
      exists x', zs'; auto.
Qed.

Lemma gather_total {X Y : Type} (f : X -> result (list Y)) xs :
  (forall x, In x xs -> exists ys, f x = Ok ys) ->
  exists ys, gather f xs = Ok ys.
Proof.
  induction xs as [|x xs IH]; intros H; simpl; [eauto|].
  destruct (H x) as [ys ->]; [left; reflexivity|].
  destruct IH as [rest ->]; [intros; apply H; right; assumption|].
  cbn [bind]. eauto.
Qed.

Lemma candidates_total {DB : CharDB} text :
  exists cs, candidates text = Ok cs.
Proof.
  apply gather_total. intros [ty pats] Hitem.
  apply gather_total. intros p Hp. simpl in Hp.
  pose proof (patterns_anchored ty pats p Hitem Hp) as Ha.
  unfold anchored in Ha. destruct (re_compile p) as [r| |] eqn:Hr;
    try discriminate.
  unfold pattern_candidates.
  destruct (finditer_total p text r Hr) as [ms ->]. cbn [bind]. eauto.
Qed.

Lemma candidates_well_formed {DB : CharDB} text cs :
  candidates text = Ok cs -> forall e, In e cs -> well_formed text e.
Proof.
  intros Hcs e He.
  destruct (gather_In _ _ _ _ Hcs He) as ([ty pats] & zs & Hitem & Hzs & Hez).
  destruct (gather_In _ _ _ _ Hzs Hez) as (p & es & Hp & Hes & Hee).
  simpl in *. unfold pattern_candidates in Hes.
  destruct (finditer p text) as [ms| |] eqn:Hms; cbn [bind] in Hes;
    try discriminate.
  injection Hes as <-. apply in_map_iff in Hee as (mt & <- & Hmt).
  apply finditer_sound in Hms as (r & Hr & Hall).
  rewrite List.Forall_forall in Hall. apply Hall in Hmt as (Hstr & Hm & Hspan).
  pose proof (patterns_anchored ty pats p Hitem Hp) as Ha.
  unfold anchored in Ha. rewrite Hr in Ha. apply andb_prop in Ha as [Hs He'].
  unfold well_formed; simpl. repeat split.
  - unfold group0. rewrite Hstr. reflexivity.
  - apply Hspan.
  - apply Hspan.
  - eapply matches_starts_bound; eauto.
  - eapply matches_ends_bound; eauto.
  - exists ty, pats; auto.
Qed.

(** ** Deduplication *)

Lemma find_app_l {A : Type} (f : A -> bool) l1 l2 x :
  List.find f l1 = Some x -> List.find f (l1 ++ l2) = Some x.
Proof.
  induction l1 as [|a l1 IH]; simpl; [discriminate|].
  destruct (f a); auto.
Qed.

Lemma find_app_r {A : Type} (f : A -> bool) l1 l2 :
  (forall a, In a l1 -> f a = false) ->
  List.find f (l1 ++ l2) = List.find f l2.
Proof.
  induction l1 as [|a l1 IH]; simpl; intros H; [reflexivity|].
  rewrite (H a) by auto. apply IH. auto.
Qed.

(** The state of the loops after the candidates [cs]: [seen] holds the
    keys of [entities], no key occurs twice, each entity is the first
    candidate with its key, and every candidate's key has been seen. *)
Lemma record_invariant {DB : CharDB} cs :
  let st := fold_left record cs ([], ∅) in
  (forall k, k ∈ st.2 <-> exists e, In e st.1 /\ key e = k) /\
  NoDup (List.map key st.1) /\
  (forall e, In e st.1 -> List.find (has_key (key e)) cs = Some e) /\
  (forall c, In c cs -> key c ∈ st.2).
Proof.
  induction cs as [|c cs IH] using rev_ind; simpl.
  - repeat split.
    + intros Hk. set_solver.
    + intros (e & [] & _).
    + constructor.
    + intros e [].
    + intros c [].
  - rewrite fold_left_app. simpl.
    destruct (fold_left record cs ([], ∅)) as [es seen].
    simpl in IH. destruct IH as (Hseen & Hnodup & Hfirst & Hall).
    unfold record; simpl. destruct (decide (key c ∈ seen)) as [Hin|Hnew]; simpl.
    + repeat split; auto.
      * apply Hseen.
      * apply Hseen.
      * intros e He. apply find_app_l. auto.
      * intros c' Hc'. apply in_app_or in Hc' as [Hc'|[<-|[]]]; auto.
    + assert (Hfresh : forall a, In a cs -> has_key (key c) a = false).
      { intros a Ha. unfold has_key. apply bool_decide_eq_false.
        intros Heq. apply Hnew. rewrite <- Heq. auto. }
      repeat split.
      * intros Hk. apply elem_of_union in Hk as [Hk|Hk].
        -- apply Hseen in Hk as (e & He & <-). exists e; split; auto.
           apply in_or_app; auto.
        -- apply elem_of_singleton in Hk as ->. exists c; split; auto.
           apply in_or_app; right; left; reflexivity.
      * intros (e & He & <-). apply in_app_or in He as [He|[<-|[]]].
        -- apply elem_of_union; left. apply Hseen. eauto.
        -- apply elem_of_union; right. apply elem_of_singleton. reflexivity.
      * rewrite List.map_app. simpl. apply NoDup_app. repeat split; auto.
        -- intros k Hk Hk'. apply list_elem_of_singleton in Hk' as ->.
           apply Hnew. apply Hseen.
           apply list_elem_of_In, in_map_iff in Hk as (e & He & Hin).
           eauto.
        -- apply NoDup_singleton.
      * intros e He. apply in_app_or in He as [He|[<-|[]]].
        -- apply find_app_l. auto.
        -- rewrite find_app_r by exact Hfresh. simpl.
           unfold has_key. rewrite bool_decide_eq_true_2; reflexivity.
      * intros c' Hc'. apply elem_of_union.
        apply in_app_or in Hc' as [Hc'|[<-|[]]]; [left; auto|right].
        apply elem_of_singleton. reflexivity.
Qed.

Lemma recorded_candidate {DB : CharDB} cs e :
  In e (fold_left record cs ([], ∅)).1 -> In e cs.
Proof.
  intros He. destruct (record_invariant cs) as (_ & _ & Hfirst & _).
  apply Hfirst, find_some in He. apply He.
Qed.

(** ** The sort *)

Lemma insert_by_start_perm e l : Permutation (insert_by_start e l) (e :: l).
Proof.
  induction l as [|x l IH]; simpl; [reflexivity|].
  destruct (start e <=? start x); [reflexivity|].
  rewrite IH. apply perm_swap.
Qed.

Lemma sort_by_start_perm l : Permutation (sort_by_start l) l.
Proof.
  induction l as [|e l IH]; simpl; [reflexivity|].
  rewrite insert_by_start_perm. constructor. exact IH.
Qed.

Lemma insert_by_start_sorted e l :
  StronglySorted le_start l -> StronglySorted le_start (insert_by_start e l).
Proof.
  induction 1 as [|x l Hl IH Hx]; simpl.
  - repeat constructor.
  - destruct (start e <=? start x) eqn:Hle.
    + apply Nat.leb_le in Hle. constructor; [constructor; assumption|].
      constructor; [exact Hle|].
      eapply List.Forall_impl; [|exact Hx].
      unfold le_start in *; intros; lia.
    + apply Nat.leb_gt in Hle. constructor; [exact IH|].
      eapply Permutation_Forall; [symmetry; apply insert_by_start_perm|].
      constructor; [unfold le_start; lia|exact Hx].
Qed.

Lemma sort_by_start_sorted l : StronglySorted le_start (sort_by_start l).
Proof.
  induction l as [|e l IH]; simpl; [constructor|].
  apply insert_by_start_sorted, IH.
Qed.

(** Inserting never moves an entity past another with the same start. *)
Lemma insert_by_start_stable n e l :
  List.filter (starts_at n) (insert_by_start e l) =
  List.filter (starts_at n) (e :: l).
Proof.
  induction l as [|x l IH]; [reflexivity|].
  cbn [insert_by_start]. destruct (start e <=? start x) eqn:Hle; [reflexivity|].
  apply Nat.leb_gt in Hle.
  cbn [List.filter] in *. rewrite IH. unfold starts_at.
  destruct (start e =? n) eqn:He, (start x =? n) eqn:Hx; try reflexivity.
  apply Nat.eqb_eq in He, Hx. lia.
Qed.

Lemma sort_by_start_stable n l :
  List.filter (starts_at n) (sort_by_start l) = List.filter (starts_at n) l.
Proof.
  induction l as [|e l IH]; [reflexivity|].
  cbn [sort_by_start fold_right]. rewrite insert_by_start_stable.
  cbn [List.filter]. fold (sort_by_start l). rewrite IH. reflexivity.
Qed.

(** ** [extract_entities] *)

(** Every run returns: the candidates deduplicated, then sorted. *)
Lemma extract_entities_run {DB : CharDB} text :
  exists cs, candidates text = Ok cs /\
             scan_all text = Ok (recorded cs) /\
             extract_entities text = Ok (sort_by_start (recorded cs)).
Proof.
  destruct (candidates_total text) as [cs Hcs]. exists cs.
  assert (Hscan : scan_all text = Ok (recorded cs)).
  { rewrite scan_all_candidates, Hcs. reflexivity. }
  repeat split; auto. unfold extract_entities. rewrite Hscan. reflexivity.
Qed.

Lemma returned_candidate {DB : CharDB} cs e :
  In e (sort_by_start (recorded cs)) -> In e cs.
Proof.
  intros He. apply recorded_candidate.
  eapply Permutation_in; [apply sort_by_start_perm|exact He].
Qed.

Lemma gather_nil {X Y : Type} (f : X -> result (list Y)) xs :
  (forall x, In x xs -> f x = Ok []) -> gather f xs = Ok [].
Proof.
  induction xs as [|x xs IH]; intros H; simpl; [reflexivity|].
  rewrite (H x) by (left; reflexivity). cbn [bind].
  rewrite IH by (intros; apply H; right; assumption). reflexivity.
Qed.

Lemma slice_lookup (t w : str) a b j :
  slice t a b = w -> j < length w -> t !! (a + j) = w !! j.
Proof.
  unfold slice. intros <- Hj. rewrite length_take in Hj.
  rewrite lookup_take_lt by lia. rewrite lookup_drop. reflexivity.
Qed.

Lemma slice_length (t : str) a b :
  a <= b <= length t -> length (slice t a b) = b - a.
Proof.
  intros H. unfold slice. rewrite length_take, length_drop. lia.
Qed.

(** C1. Every call returns, and every entity [e] returned for [text]
    carries the verbatim span: [text[e.start:e.end] == e.name], with
    [start] and [end] 0-indexed, end-exclusive offsets into [text]
    itself, so that [name] has the casing found in [text]. *)
Theorem extract_entities_verbatim_span (DB : CharDB) (text : str) :
  exists l, extract_entities text = Ok l /\
    forall e, In e l ->
      slice text (start e) (end_ e) = name e /\
      start e <= end_ e <= length text.
Proof.
  destruct (extract_entities_run text) as (cs & Hcs & _ & Hl).
  eexists; split; [exact Hl|]. intros e He.
  apply returned_candidate in He.
  destruct (candidates_well_formed text cs Hcs e He) as (Hname & Hspan & _).
  split; [symmetry; exact Hname|exact Hspan].
Qed.

(** C2. No two returned entities share the triple
    [(name.lower(), start, end)]; each returned entity is the first
    candidate with its triple in the order the categories and patterns
    are scanned, and every candidate's triple is that of a returned
    entity (later duplicates are dropped, nothing else is). *)
Theorem extract_entities_dedup (DB : CharDB) (text : str) :
  exists l cs,
    extract_entities text = Ok l /\ candidates text = Ok cs /\
    List.NoDup (List.map key l) /\
    (forall e, In e l -> List.find (has_key (key e)) cs = Some e) /\
    (forall c, In c cs -> exists e, In e l /\ key e = key c).
Proof.
  destruct (extract_entities_run text) as (cs & Hcs & _ & Hl).
  exists (sort_by_start (recorded cs)), cs.
  destruct (record_invariant cs) as (Hseen & Hnodup & Hfirst & Hall).
  pose proof (sort_by_start_perm (recorded cs)) as Hperm.
  repeat split; auto.
  - apply NoDup_ListNoDup. rewrite Hperm. exact Hnodup.
  - intros e He. apply Hfirst. eapply Permutation_in; eauto.
  - intros c Hc. apply Hall, Hseen in Hc as (e & He & Hk).
    exists e; split; [|exact Hk].
    eapply Permutation_in; [symmetry; exact Hperm|exact He].
Qed.

(** C3. The returned list is in ascending order of [start]; it is a
    rearrangement of the list the scan produced, and entities with the
    same [start] keep the order the scan gave them. *)
Theorem extract_entities_sorted_stable (DB : CharDB) (text : str) :
  exists l scanned,
    extract_entities text = Ok l /\ scan_all text = Ok scanned /\
    StronglySorted le_start l /\
    Permutation l scanned /\
    forall n, List.filter (starts_at n) l = List.filter (starts_at n) scanned.
Proof.
  destruct (extract_entities_run text) as (cs & _ & Hscan & Hl).
  exists (sort_by_start (recorded cs)), (recorded cs).
  repeat split; auto.
  - apply sort_by_start_sorted.
  - apply sort_by_start_perm.
  - intros n. apply sort_by_start_stable.
Qed.

(** C6. [extract_entities] returns a list for every string: no
    exception escapes and the scanner's budget is never exhausted.  The
    empty string gives the empty list, and so does every text in which
    no pattern finds a match. *)
Theorem extract_entities_total (DB : CharDB) :
  (forall text, exists l, extract_entities text = Ok l) /\
  extract_entities [] = Ok [] /\
  (forall text,
     (forall ty pats p, In (ty, pats) PATTERNS -> In p pats ->
                        finditer p text = Ok []) ->
     extract_entities text = Ok []).
Proof.
  split; [|split].
  - intros text. destruct (extract_entities_run text) as (cs & _ & _ & Hl).
    eauto.
  - vm_compute. reflexivity.
  - intros text Hnone.
    assert (Hcs : candidates text = Ok []).
    { apply gather_nil. intros [ty pats] Hitem.
      apply gather_nil. intros p Hp. unfold pattern_candidates.
      rewrite (Hnone ty pats p Hitem Hp). reflexivity. }
    unfold extract_entities. rewrite scan_all_candidates, Hcs. reflexivity.
Qed.

(** C7. Matches are anchored at word boundaries: every returned entity
    begins and ends where exactly one of the two neighbouring characters
    is a word character.  In particular, wherever "Pythonic" occurs in
    the text, no returned entity spans its first six characters. *)
Theorem extract_entities_word_boundary (DB : CharDB) (text : str) :
  exists l, extract_entities text = Ok l /\
    (forall e, In e l ->
       at_boundary text (start e) = true /\ at_boundary text (end_ e) = true) /\
    (forall i, slice text i (i + 8) = py "Pythonic" ->
       forall e, In e l -> ~ (start e = i /\ end_ e = i + 6)).
Proof.
  destruct (extract_entities_run text) as (cs & Hcs & _ & Hl).
  eexists; split; [exact Hl|].
  assert (Hb : forall e, In e (sort_by_start (recorded cs)) ->
     at_boundary text (start e) = true /\ at_boundary text (end_ e) = true).
  { intros e He. apply returned_candidate in He.
    destruct (candidates_well_formed text cs Hcs e He) as (_ & _ & ? & ? & _).
    auto. }
  split; [exact Hb|].
  intros i Hocc e He [Hs Hend]. apply Hb in He as [_ Hat].
  rewrite Hend in Hat. replace (i + 6) with (S (i + 5)) in Hat by lia.
  unfold at_boundary, word_at in Hat.
  replace (S (i + 5)) with (i + 6) in Hat by lia.
  rewrite (slice_lookup _ _ _ _ 5 Hocc) in Hat by (simpl; lia).
  rewrite (slice_lookup _ _ _ _ 6 Hocc) in Hat by (simpl; lia).
  simpl in Hat. rewrite !isword_ascii in Hat by reflexivity.
  discriminate.
Qed.

(** C9. Every returned entity has type "technology", "date" or
    "concept", the categories that have patterns; none has type
    "person", "organization" or "location". *)
Theorem extract_entities_types (DB : CharDB) (text : str) :
  exists l, extract_entities text = Ok l /\
    forall e, In e l ->
      (entity_type e = "technology" \/ entity_type e = "date" \/
       entity_type e = "concept")%string /\
      entity_type e <> value PERSON /\
      entity_type e <> value ORGANIZATION /\
      entity_type e <> value LOCATION.
Proof.
  destruct (extract_entities_run text) as (cs & Hcs & _ & Hl).
  eexists; split; [exact Hl|]. intros e He. apply returned_candidate in He.
  destruct (candidates_well_formed text cs Hcs e He)
    as (_ & _ & _ & _ & ty & pats & Hitem & ->).
  simpl in Hitem.
  destruct Hitem as [[= <- _]|[[= <- _]|[[= <- _]|[]]]]; simpl;
    repeat split; auto; discriminate.
Qed.

(** C10. If every occurrence of "C++" in the text is followed by a
    non-word character or by the end of the text, no returned entity is
    named "C++": each pattern ends in [\b], which after '+' asks for a
    word character. *)
Theorem extract_entities_cpp_unreachable (DB : CharDB) (text : str) :
  (forall i, slice text i (i + 3) = py "C++" -> word_at text (i + 3) = false) ->
  exists l, extract_entities text = Ok l /\
    forall e, In e l -> name e <> py "C++".
Proof.
  intros Hfollow.
  destruct (extract_entities_run text) as (cs & Hcs & _ & Hl).
  eexists; split; [exact Hl|]. intros e He Hname.
  apply returned_candidate in He.
  destruct (candidates_well_formed text cs Hcs e He)
    as (Hslice & Hspan & _ & Hat & _).
  rewrite Hname in Hslice. symmetry in Hslice.
  pose proof (slice_length text _ _ Hspan) as Hlen.
  rewrite Hslice in Hlen. simpl in Hlen.
  replace (end_ e) with (start e + 3) in * by lia.
  pose proof (Hfollow _ Hslice) as Hnext.
  replace (start e + 3) with (S (start e + 2)) in Hat by lia.
  unfold at_boundary in Hat.
  replace (S (start e + 2)) with (start e + 3) in Hat by lia.
  rewrite Hnext in Hat. unfold word_at in Hat.
  rewrite (slice_lookup _ _ _ _ 2 Hslice) in Hat by (simpl; lia).
  simpl in Hat. rewrite isword_ascii in Hat by reflexivity.
  discriminate.
Qed.

(** ** The embedding engine *)

(** C5. On the empty list [generate_embeddings] returns the empty list
    and leaves the world as it was: [_model] keeps its value, so a model
    that was not loaded is still not loaded, and no call into the
    library is made. *)
Theorem generate_embeddings_empty
    (Model : Type) (SentenceTransformer : string -> result Model)
    (encode : Model -> list str -> result (list (list float)))
    (w : world Model) :
  generate_embeddings Model SentenceTransformer encode [] w = (Ok [], w) /\
  (_model w = None ->
   _model (generate_embeddings Model SentenceTransformer encode [] w).2 = None) /\
  calls (generate_embeddings Model SentenceTransformer encode [] w).2 = calls w.
Proof.
  unfold generate_embeddings. simpl. repeat split. intros H; exact H.
Qed.

(** C8, as the code has it.  Whenever [/health] answers, the identifier
    it reports is the literal "all-MiniLM-L6-v2", which is not
    [MODEL_NAME], the model [get_model] loads. *)
Theorem health_reports_other_model
    (Model : Type) (SentenceTransformer : string -> result Model)
    (get_sentence_embedding_dimension : Model -> Z)
    (w w' : world Model) (resp : HealthResponse) :
  health Model SentenceTransformer get_sentence_embedding_dimension w
    = (Ok resp, w') ->
  model resp = "all-MiniLM-L6-v2"%string /\ model resp <> MODEL_NAME /\
  (_model w = None -> calls w' = calls w ++ [Load MODEL_NAME]).
Proof.
  unfold health, get_embedding_dimension, get_model.
  destruct (_model w) as [mdl|] eqn:Hw.
  - cbn [bind]. intros [= <- <-]. simpl. repeat split; discriminate.
  - destruct (SentenceTransformer MODEL_NAME) as [mdl| |]; cbn [bind];
      try discriminate.
    intros [= <- <-]. simpl. repeat split; discriminate.
Qed.

(** ** Concrete runs, on ASCII text *)

Example compile_quarter :
  re_compile "\b(Q[1-4]\s+\d{4})\b"
  = Ok (Cat Bound
          (Cat (Group (Cat (Chr [CLit 81])
                         (Cat (Chr [CRange 49 52])
                            (Cat (Rep [CSpace] 1 None)
                               (Rep [CDigit] 4 (Some 4))))))
               Bound)).
Proof. reflexivity. Qed.

Example compile_unbalanced :
  re_compile "\b(Python" = Raise (re_error "missing ), unterminated subpattern").
Proof. reflexivity. Qed.

(** Two candidates on one span: the one scanned first is kept. *)
Example record_first_wins :
  recorded [entity "May" DATE 0 3; entity "MAY" TECHNOLOGY 0 3;
            entity "May" DATE 7 10]
  = [entity "May" DATE 0 3; entity "May" DATE 7 10].
Proof. vm_compute. reflexivity. Qed.

Example sort_is_stable :
  sort_by_start [entity "b" CONCEPT 4 5; entity "a" DATE 0 2;
                 entity "a" TECHNOLOGY 0 1]
  = [entity "a" DATE 0 2; entity "a" TECHNOLOGY 0 1; entity "b" CONCEPT 4 5].
Proof. reflexivity. Qed.

Example run_technology :
  extract_entities (py "We use Python and PostgreSQL for our backend")
  = Ok [entity "Python" TECHNOLOGY 7 13; entity "PostgreSQL" TECHNOLOGY 18 28].
Proof. vm_compute. reflexivity. Qed.

Example run_date :
  extract_entities (py "The project started on 2024-01-15")
  = Ok [entity "2024-01-15" DATE 23 33].
Proof. vm_compute. reflexivity. Qed.

Example run_case_insensitive :
  extract_entities (py "PYTHON and python are the same")
  = Ok [entity "PYTHON" TECHNOLOGY 0 6; entity "python" TECHNOLOGY 11 17].
Proof. vm_compute. reflexivity. Qed.

Example run_concepts :
  extract_entities (py "We're implementing a knowledge graph with vector search")
  = Ok [entity "knowledge graph" CONCEPT 21 36;
        entity "vector search" CONCEPT 42 55].
Proof. vm_compute. reflexivity. Qed.

Example run_plain :
  extract_entities (py "Just some plain text without any special terms") = Ok [].
Proof. vm_compute. reflexivity. Qed.

Example run_cpp_before_space :
  extract_entities (py "We use C++ daily") = Ok [].
Proof. vm_compute. reflexivity. Qed.

Example run_cpp_before_word :
  extract_entities (py "We use C++x") = Ok [entity "C++" TECHNOLOGY 7 10].
Proof. vm_compute. reflexivity. Qed.

Example run_pythonic :
  extract_entities (py "Pythonic code in Go-lang")
  = Ok [entity "Go" TECHNOLOGY 17 19].
Proof. vm_compute. reflexivity. Qed.

Lemma extract_entities_verbatim_span_witness :
  let text := py "Python is great" in
  let e := entity "Python" TECHNOLOGY 0 6 in
  extract_entities text = Ok [e] /\
  slice text (start e) (end_ e) = name e /\
  start e <= end_ e <= length text.
Proof.
  intros text e.
  assert (Hrun : extract_entities text = Ok [e]) by (vm_compute; reflexivity).
  split; [exact Hrun|].
  destruct (extract_entities_verbatim_span AsciiDB text) as (l & Hl & H).
  rewrite Hrun in Hl. injection Hl as <-.
  apply H. left; reflexivity.
Defined.

Lemma extract_entities_dedup_witness :
  let text := py "PYTHON and python are the same" in
  let e := entity "python" TECHNOLOGY 11 17 in
  exists cs, candidates text = Ok cs /\
             List.find (has_key (py "python", 11, 17)) cs = Some e.
Proof.
  intros text e.
  assert (Hrun : extract_entities text
                 = Ok [entity "PYTHON" TECHNOLOGY 0 6; e])
    by (vm_compute; reflexivity).
  destruct (extract_entities_dedup AsciiDB text)
    as (l & cs & Hl & Hcs & _ & Hfirst & _).
  rewrite Hrun in Hl. injection Hl as <-.
  exists cs; split; [exact Hcs|].
  apply (Hfirst e). right; left; reflexivity.
Defined.

Lemma extract_entities_sorted_stable_witness :
  let text := py "Redis then Python" in
  exists scanned,
    scan_all text = Ok scanned /\
    StronglySorted le_start
      [entity "Redis" TECHNOLOGY 0 5; entity "Python" TECHNOLOGY 11 17] /\
    Permutation
      [entity "Redis" TECHNOLOGY 0 5; entity "Python" TECHNOLOGY 11 17] scanned.
Proof.
  intros text.
  assert (Hrun : extract_entities text
                 = Ok [entity "Redis" TECHNOLOGY 0 5;
                       entity "Python" TECHNOLOGY 11 17])
    by (vm_compute; reflexivity).
  destruct (extract_entities_sorted_stable AsciiDB text)
    as (l & scanned & Hl & Hscan & Hsorted & Hperm & _).
  rewrite Hrun in Hl. injection Hl as <-.
  exists scanned. auto.
Defined.

Lemma extract_entities_total_witness :
  extract_entities (py "Just some plain text without any special terms") = Ok [].
Proof.
  apply (extract_entities_total AsciiDB).
  intros ty pats p Hitem Hp. simpl in Hitem.
  destruct Hitem as [[= <- <-]|[[= <- <-]|[[= <- <-]|[]]]]; simpl in Hp;
    repeat (destruct Hp as [<-|Hp]; [vm_compute; reflexivity|]);
    destruct Hp.
Defined.

Lemma extract_entities_word_boundary_witness :
  exists l, extract_entities (py "Pythonic code") = Ok l /\
            forall e, In e l -> ~ (start e = 0 /\ end_ e = 6).
Proof.
  destruct (extract_entities_word_boundary AsciiDB (py "Pythonic code"))
    as (l & Hl & _ & H).
  exists l; split; [exact Hl|]. apply (H 0). vm_compute. reflexivity.
Defined.

Lemma extract_entities_types_witness :
  let text := py "The project started on 2024-01-15" in
  let e := entity "2024-01-15" DATE 23 33 in
  extract_entities text = Ok [e] /\ entity_type e <> value LOCATION.
Proof.
  intros text e.
  assert (Hrun : extract_entities text = Ok [e]) by (vm_compute; reflexivity).
  split; [exact Hrun|].
  destruct (extract_entities_types AsciiDB text) as (l & Hl & H).
  rewrite Hrun in Hl. injection Hl as <-.
  apply (H e). left; reflexivity.
Defined.

Lemma extract_entities_cpp_unreachable_witness :
  exists l, extract_entities (py "We use C++ daily") = Ok l /\
            forall e, In e l -> name e <> py "C++".
Proof.
  apply (extract_entities_cpp_unreachable AsciiDB (py "We use C++ daily")).
  intros i Hi. replace (i + 3) with (3 + i) in * by lia.
  do 13 (destruct i as [|i];
         [vm_compute in Hi; try discriminate Hi; vm_compute; reflexivity|]).
  vm_compute. reflexivity.
Defined.

Lemma generate_embeddings_empty_witness :
  let w := {| _model := @None unit; calls := [] |} in
  _model (generate_embeddings unit (fun _ => Ok tt) (fun _ _ => Ok []) [] w).2
  = None.
Proof.
  intros w.
  apply (generate_embeddings_empty unit (fun _ => Ok tt) (fun _ _ => Ok []) w).
  reflexivity.
Defined.

Lemma health_reports_other_model_witness :
  let w := {| _model := @None unit; calls := [] |} in
  exists resp w',
    health unit (fun _ => Ok tt) (fun _ => 768%Z) w = (Ok resp, w') /\
    model resp <> MODEL_NAME /\ calls w' = [Load MODEL_NAME].
Proof.
  intros w. eexists _, _. split; [reflexivity|].
  split.
  - apply (health_reports_other_model unit (fun _ => Ok tt) (fun _ => 768%Z)
             w _ _ eq_refl).
  - apply (health_reports_other_model unit (fun _ => Ok tt) (fun _ => 768%Z)
             w _ _ eq_refl). reflexivity.
Defined.

(** * Further properties of the extractor *)

Lemma matches_le {DB : CharDB} text r i j : matches text r i j -> i <= j.
Proof. induction 1; lia. Qed.

Lemma matches_consumes {DB : CharDB} text r i j :
  matches text r i j -> consumes r = true -> i < j.
Proof.
  induction 1 as [i|s i x _ _|i _|r1 r2 i j k H1 IH1 H2 IH2|r1 r2 i j _ IH
                 |r1 r2 i j _ IH|r i j _ IH|s lo hi i c Hlo _ _];
    simpl; intros Hc; try discriminate.
  - lia.
  - apply matches_le in H1, H2.
    apply orb_prop in Hc as [Hc|Hc]; [apply IH1 in Hc|apply IH2 in Hc]; lia.
  - apply andb_prop in Hc as [? _]; auto.
  - apply andb_prop in Hc as [_ ?]; auto.
  - auto.
  - apply Nat.ltb_lt in Hc. lia.
Qed.

Lemma patterns_never_empty :
  forall ty pats p, In (ty, pats) PATTERNS -> In p pats -> never_empty p = true.
Proof.
  assert (H : forallb (fun item => forallb never_empty item.2) PATTERNS = true)
    by (vm_compute; reflexivity).
  intros ty pats p Hitem Hp.
  rewrite forallb_forall in H. specialize (H _ Hitem). simpl in H.
  rewrite forallb_forall in H. auto.
Qed.

(** Where a candidate comes from: a match of one pattern of the table. *)
Lemma candidate_origin {DB : CharDB} text cs e :
  candidates text = Ok cs -> In e cs ->
  exists ty pats p r ms mt,
    In (ty, pats) PATTERNS /\ In p pats /\ re_compile p = Ok r /\
    finditer p text = Ok ms /\ In mt ms /\ e = entity_of ty mt /\
    m_string mt = text /\ matches text r (m_start mt) (m_end mt).
Proof.
  intros Hcs He.
  destruct (gather_In _ _ _ _ Hcs He) as ([ty pats] & zs & Hitem & Hzs & Hez).
  destruct (gather_In _ _ _ _ Hzs Hez) as (p & es & Hp & Hes & Hee).
  simpl in *. unfold pattern_candidates in Hes.
  destruct (finditer p text) as [ms| |] eqn:Hms; cbn [bind] in Hes;
    try discriminate.
  injection Hes as <-. apply in_map_iff in Hee as (mt & <- & Hmt).
  pose proof Hms as Hsound.
  apply finditer_sound in Hsound as (r & Hr & Hall).
  rewrite List.Forall_forall in Hall.
  destruct (Hall _ Hmt) as (Hstr & Hm & _).
  exists ty, pats, p, r, ms, mt. repeat split; auto.
Qed.

(** X1. Every returned entity has confidence 0.8. *)
Theorem extract_entities_confidence (DB : CharDB) (text : str) :
  exists l, extract_entities text = Ok l /\
    forall e, In e l -> confidence e = 0.8%float.
Proof.
  destruct (extract_entities_run text) as (cs & Hcs & _ & Hl).
  eexists; split; [exact Hl|]. intros e He. apply returned_candidate in He.
  destruct (candidate_origin text cs e Hcs He)
    as (ty & pats & p & r & ms & mt & _ & _ & _ & _ & _ & -> & _).
  reflexivity.
Qed.

(** X2. No returned entity is empty: [start < end], so [name] has at
    least one character. *)
Theorem extract_entities_nonempty_span (DB : CharDB) (text : str) :
  exists l, extract_entities text = Ok l /\
    forall e, In e l -> start e < end_ e /\ name e <> [].
Proof.
  destruct (extract_entities_run text) as (cs & Hcs & _ & Hl).
  eexists; split; [exact Hl|]. intros e He. apply returned_candidate in He.
  destruct (candidates_well_formed text cs Hcs e He) as (Hname & Hspan & _).
  destruct (candidate_origin text cs e Hcs He)
    as (ty & pats & p & r & ms & mt & Hitem & Hp & Hr & _ & _ & -> & _ & Hm).
  pose proof (patterns_never_empty ty pats p Hitem Hp) as Hne.
  unfold never_empty in Hne. rewrite Hr in Hne.
  pose proof (matches_consumes _ _ _ _ Hm Hne) as Hlt. simpl in *.
  split; [exact Hlt|].
  intros Hnil. apply (f_equal length) in Hname.
  rewrite Hnil, slice_length in Hname by exact Hspan. simpl in Hname. lia.
Qed.

Lemma scan_length {DB : CharDB} text r :
  consumes r = true ->
  forall fuel pos adv l,
    pos <= length text ->
    scan text r fuel pos adv = Ok l -> length l <= length text - pos.
Proof.
  intros Hc. induction fuel as [|f IH]; intros pos adv l Hpos; simpl;
    [discriminate|].
  destruct (search text r pos adv) as [[s e]|] eqn:Hs.
  - apply search_sound in Hs as (H1 & H2 & H3 & Hm & _); [|exact Hpos].
    pose proof (matches_consumes _ _ _ _ Hm Hc) as Hlt.
    destruct (scan text r f e (e =? s)) as [rest| |] eqn:Hrest;
      cbn [bind]; try discriminate.
    intros [= <-]. apply IH in Hrest; [|exact H3]. simpl. lia.
  - intros [= <-]. simpl. lia.
Qed.

Lemma finditer_length {DB : CharDB} pattern text ms :
  never_empty pattern = true ->
  finditer pattern text = Ok ms -> length ms <= length text.
Proof.
  unfold never_empty, finditer.
  destruct (re_compile pattern) as [r| |]; cbn [bind]; try discriminate.
  intros Hc.
  destruct (scan text r (2 * length text + 2) 0 false) as [l| |] eqn:Hl;
    cbn [bind]; try discriminate.
  intros [= <-]. rewrite length_map.
  apply (scan_length text r Hc) in Hl; lia.
Qed.

Lemma gather_length {X Y : Type} (f : X -> result (list Y)) (g : X -> nat) xs :
  (forall x zs, In x xs -> f x = Ok zs -> length zs <= g x) ->
  forall ys, gather f xs = Ok ys -> length ys <= list_sum (List.map g xs).
Proof.
  induction xs as [|x xs IH]; intros H ys; simpl.
  - intros [= <-]. simpl. lia.
  - destruct (f x) as [zs| |] eqn:Hx; cbn [bind]; try discriminate.
    destruct (gather f xs) as [rest| |]; cbn [bind]; try discriminate.
    intros [= <-]. rewrite length_app.
    pose proof (H x zs (or_introl eq_refl) Hx).
    assert (length rest <= list_sum (List.map g xs)); [|lia].
    apply IH; auto. intros x' zs' Hin. apply H. right; exact Hin.
Qed.

Lemma candidates_length {DB : CharDB} text cs :
  candidates text = Ok cs -> length cs <= pattern_count * length text.
Proof.
  intros Hcs.
  apply (gather_length _ (fun item => length item.2 * length text)) in Hcs.
  - unfold pattern_count. etransitivity; [exact Hcs|].
    clear. induction PATTERNS as [|item items IH]; simpl in *; lia.
  - intros [ty pats] zs Hitem Hzs. cbn [fst snd] in *.
    apply (gather_length _ (fun _ => length text)) in Hzs.
    + etransitivity; [exact Hzs|]. clear.
      induction pats as [|p pats IH]; simpl; lia.
    + intros p ms Hp. unfold pattern_candidates.
      destruct (finditer p text) as [ms'| |] eqn:Hms; cbn [bind];
        try discriminate.
      intros [= <-]. rewrite length_map.
      eapply finditer_length; [|exact Hms].
      exact (patterns_never_empty ty pats p Hitem Hp).
Qed.

Lemma fold_record_length {DB : CharDB} cs : forall st,
  length (fold_left record cs st).1 <= length st.1 + length cs.
Proof.
  induction cs as [|c cs IH]; intros st; simpl; [lia|].
  etransitivity; [apply IH|]. unfold record.
  destruct (decide (key c ∈ st.2)); simpl; [lia|].
  rewrite length_app. simpl. lia.
Qed.

(** X3. The number of entities returned is at most fourteen, the number
    of patterns, times the length of the text: one pattern never matches
    the empty string nor twice at one place. *)
Theorem extract_entities_size (DB : CharDB) (text : str) :
  exists l, extract_entities text = Ok l /\ length l <= 14 * length text.
Proof.
  destruct (extract_entities_run text) as (cs & Hcs & _ & Hl).
  eexists; split; [exact Hl|].
  rewrite (Permutation_length (sort_by_start_perm (recorded cs))).
  pose proof (fold_record_length cs ([], ∅)) as Hrec.
  pose proof (candidates_length text cs Hcs) as Hcand.
  change pattern_count with 14 in Hcand. unfold recorded. simpl in Hrec. lia.
Qed.

Lemma NoDup_map_finer {A B C : Type} (f : A -> B) (g : A -> C) l :
  List.NoDup (List.map f l) ->
  (forall x y, In x l -> In y l -> g x = g y -> f x = f y) ->
  List.NoDup (List.map g l).
Proof.
  induction l as [|a l IH]; simpl; intros Hnd Hfg; [constructor|].
  apply List.NoDup_cons_iff in Hnd as [Hnotin Hnd].
  constructor.
  - intros Hin. apply in_map_iff in Hin as (y & Hy & Hyl).
    apply Hnotin. apply in_map_iff. exists y; split; [|exact Hyl].
    apply Hfg; auto.
  - apply IH; auto.
Qed.

(** X4. No two returned entities have the same span [(start, end)]:
    whatever [str.lower] does to the names, the span alone tells the
    entities apart. *)
Theorem extract_entities_distinct_spans (DB : CharDB) (text : str) :
  exists l, extract_entities text = Ok l /\ List.NoDup (List.map span l).
Proof.
  destruct (extract_entities_run text) as (cs & Hcs & _ & Hl).
  eexists; split; [exact Hl|].
  destruct (record_invariant cs) as (_ & Hnodup & _ & _).
  pose proof (sort_by_start_perm (recorded cs)) as Hperm.
  apply (NoDup_map_finer key).
  - apply NoDup_ListNoDup. rewrite Hperm. exact Hnodup.
  - intros x y Hx Hy Hxy. apply returned_candidate in Hx, Hy.
    destruct (candidates_well_formed text cs Hcs x Hx) as (Hnx & _).
    destruct (candidates_well_formed text cs Hcs y Hy) as (Hny & _).
    unfold span in Hxy. injection Hxy as Hs He.
    unfold key. rewrite Hnx, Hny, Hs, He. reflexivity.
Qed.

(** ** Nothing that matches is missed *)

Lemma run_ge {DB : CharDB} s (l : str) limit c :
  c <= limit ->
  (forall j, j < c -> exists x, l !! j = Some x /\ cset_match s x = true) ->
  c <= run s l limit.
Proof.
  revert l limit; induction c as [|c IH]; intros l limit Hlim Hall; [lia|].
  destruct limit as [|n]; [lia|].
  destruct (Hall 0) as (x & Hx & Hs); [lia|].
  destruct l as [|y l]; [discriminate|]. injection Hx as ->.
  simpl. rewrite Hs. apply le_n_S, IH; [lia|].
  intros j Hj. apply (Hall (S j)). lia.
Qed.

Lemma backoff_complete k i lo c n e :
  lo <= c -> c <= n -> k (i + c) = Some e ->
  exists e', backoff k i lo n = Some e'.
Proof.
  intros Hlo. induction n as [|n IH]; intros Hc Hk.
  - assert (c = 0) as -> by lia. simpl.
    destruct (0 <? lo) eqn:H0; [apply Nat.ltb_lt in H0; lia|].
    rewrite Hk. eauto.
  - simpl. destruct (S n <? lo) eqn:Hn; [apply Nat.ltb_lt in Hn; lia|].
    destruct (k (i + S n)) as [e'|] eqn:Hkn; [eauto|].
    apply IH; [|exact Hk].
    destruct (Nat.eq_dec c (S n)) as [->|]; [congruence|lia].
Qed.

(** Completeness: where [r] matches and the rest of the pattern accepts
    the end of that match, the matcher answers (maybe with another match
    that it tries earlier). *)
Lemma m_complete {DB : CharDB} text r i j :
  matches text r i j ->
  forall k e, k j = Some e -> exists e', m text r i k = Some e'.
Proof.
  induction 1 as [i|s i x Hx Hs|i Hb|r1 r2 i j j' _ IH1 _ IH2|r1 r2 i j _ IH
                 |r1 r2 i j _ IH|r i j _ IH|s lo hi i c Hlo Hhi Hall];
    intros k e Hk; simpl.
  - eauto.
  - rewrite Hx, Hs. eauto.
  - rewrite Hb. eauto.
  - destruct (IH2 k e Hk) as [e2 H2]. apply (IH1 _ e2). exact H2.
  - destruct (IH k e Hk) as [e1 ->]. eauto.
  - destruct (m text r1 i k) as [e1|]; [eauto|]. apply (IH k e Hk).
  - apply (IH k e Hk).
  - apply (backoff_complete k i lo c _ e); auto.
    apply run_ge.
    + destruct hi as [h|]; [auto|].
      destruct c as [|c]; [lia|].
      destruct (Hall c) as (x & Hx & _); [lia|].
      apply lookup_lt_Some in Hx. lia.
    + intros j Hj. destruct (Hall j Hj) as (x & Hx & Hs).
      exists x. rewrite lookup_drop. auto.
Qed.

(** The search finds a match that starts no later than any non-empty
    match there is. *)
Lemma search_from_leftmost {DB : CharDB} text r a b :
  matches text r a b -> a < b ->
  forall n s adv, s <= a -> a <= s + n ->
    exists s' e', search_from text r n s adv = Some (s', e') /\ s' <= a.
Proof.
  intros Hm Hab. induction n as [|n IH]; intros s adv Hs Hn; simpl.
  all: destruct (m text r s (accept adv s)) as [e|] eqn:Hms; [eauto|].
  all: destruct (Nat.eq_dec a s) as [->|Hne].
  1,3: destruct (m_complete text r s b Hm (accept adv s) b) as [e' He'];
       [unfold accept; destruct (b =? s) eqn:Hbs;
        [apply Nat.eqb_eq in Hbs; lia|rewrite andb_false_r; reflexivity]
       |congruence].
  - lia.
  - apply IH; lia.
Qed.

Lemma matches_start {DB : CharDB} text r i j :
  matches text r i j -> i < j -> i < length text.
Proof.
  induction 1 as [i|s i x Hx Hs|i Hb|r1 r2 i j j' H1 IH1 H2 IH2|r1 r2 i j _ IH
                 |r1 r2 i j _ IH|r i j _ IH|s lo hi i c Hlo Hhi Hall];
    intros Hlt; auto; try lia.
  - apply lookup_lt_Some in Hx. exact Hx.
  - apply matches_le in H1 as Hle1. apply matches_le in H2 as Hle2.
    destruct (Nat.eq_dec i j) as [->|]; [apply IH2; lia|apply IH1; lia].
  - destruct (Hall 0) as (x & Hx & _); [lia|].
    apply lookup_lt_Some in Hx. lia.
Qed.

(** Every non-empty match of the pattern is overlapped by one of the
    spans the scanner yields. *)
Lemma scan_cover {DB : CharDB} text r a b :
  matches text r a b -> a < b ->
  forall fuel pos adv l,
    pos <= a -> pos <= length text ->
    scan text r fuel pos adv = Ok l ->
    exists sp, In sp l /\ sp.1 <= a < sp.2.
Proof.
  intros Hm Hab.
  pose proof (matches_start text r a b Hm Hab) as Ha.
  induction fuel as [|f IH]; intros pos adv l Hpos Hlen; simpl; [discriminate|].
  destruct (search_from_leftmost text r a b Hm Hab (length text - pos) pos adv)
    as (s & e & Hs & Hsa); [lia|lia|].
  unfold search. rewrite Hs.
  fold (search text r pos adv) in Hs.
  apply search_sound in Hs as (_ & _ & He & _ & _); [|exact Hlen].
  destruct (scan text r f e (e =? s)) as [rest| |] eqn:Hrest; cbn [bind];
    try discriminate.
  intros [= <-]. destruct (le_lt_dec e a) as [Hea|Hae].
  - destruct (IH e (e =? s) rest Hea He Hrest) as (sp & Hin & Hsp).
    exists sp; split; [right; exact Hin|exact Hsp].
  - exists (s, e); split; [left; reflexivity|simpl; lia].
Qed.

Lemma finditer_cover {DB : CharDB} pattern text r ms a b :
  re_compile pattern = Ok r -> finditer pattern text = Ok ms ->
  matches text r a b -> a < b ->
  exists mt, In mt ms /\ m_start mt <= a < m_end mt.
Proof.
  unfold finditer. intros -> Hms Hm Hab. cbn [bind] in Hms.
  destruct (scan text r (2 * length text + 2) 0 false) as [l| |] eqn:Hl;
    cbn [bind] in Hms; try discriminate.
  injection Hms as <-.
  destruct (scan_cover text r a b Hm Hab _ _ _ _ (Nat.le_0_l _) (Nat.le_0_l _) Hl)
    as (sp & Hin & Hsp).
  exists {| m_string := text; m_start := sp.1; m_end := sp.2 |}.
  split; [|exact Hsp]. apply in_map_iff. exists sp; auto.
Qed.

Lemma gather_intro {X Y : Type} (f : X -> result (list Y)) xs : forall ys x zs y,
  gather f xs = Ok ys -> In x xs -> f x = Ok zs -> In y zs -> In y ys.
Proof.
  induction xs as [|x0 xs IH]; intros ys x zs y; simpl; [intros _ []|].
  destruct (f x0) as [zs0| |] eqn:Hx0; cbn [bind]; try discriminate.
  destruct (gather f xs) as [rest| |]; cbn [bind]; try discriminate.
  intros [= <-] [->|Hin] Hx Hy; apply in_or_app.
  - left. congruence.
  - right. eapply IH; eauto.
Qed.

Lemma gather_each {X Y : Type} (f : X -> result (list Y)) xs : forall ys x,
  gather f xs = Ok ys -> In x xs -> exists zs, f x = Ok zs.
Proof.
  induction xs as [|x0 xs IH]; intros ys x; simpl; [intros _ []|].
  destruct (f x0) as [zs0| |] eqn:Hx0; cbn [bind]; try discriminate.
  destruct (gather f xs) as [rest| |]; cbn [bind]; try discriminate.
  intros _ [<-|Hin]; [eauto|]. eapply IH; eauto.
Qed.

Lemma candidate_of_match {DB : CharDB} text cs ty pats p ms mt :
  candidates text = Ok cs -> In (ty, pats) PATTERNS -> In p pats ->
  finditer p text = Ok ms -> In mt ms -> In (entity_of ty mt) cs.
Proof.
  intros Hcs Hitem Hp Hms Hmt. unfold candidates in Hcs.
  destruct (gather_each _ _ _ _ Hcs Hitem) as [zs Hzs]. cbn [fst snd] in Hzs.
  eapply (gather_intro _ _ _ (ty, pats)); [exact Hcs|exact Hitem|exact Hzs|].
  eapply (gather_intro _ _ _ p); [exact Hzs|exact Hp| |].
  - unfold pattern_candidates. rewrite Hms. reflexivity.
  - apply in_map. exact Hmt.
Qed.

Lemma returned_for_candidate {DB : CharDB} cs c :
  In c cs -> exists e, In e (sort_by_start (recorded cs)) /\ key e = key c.
Proof.
  intros Hc. destruct (record_invariant cs) as (Hseen & _ & _ & Hall).
  apply Hall, Hseen in Hc as (e & He & Hk). exists e; split; [|exact Hk].
  eapply Permutation_in; [symmetry; apply sort_by_start_perm|exact He].
Qed.

(** X5. Nothing that matches is lost: wherever a pattern of the table
    matches the text, from [a] to [b], a returned entity covers offset
    [a]. *)
Theorem extract_entities_covers (DB : CharDB) (text : str)
    (ty : EntityType) (pats : list string) (p : string) (r : regex) (a b : nat) :
  In (ty, pats) PATTERNS -> In p pats -> re_compile p = Ok r ->
  matches text r a b ->
  exists l, extract_entities text = Ok l /\
    exists e, In e l /\ start e <= a < end_ e.
Proof.
  intros Hitem Hp Hr Hm.
  destruct (extract_entities_run text) as (cs & Hcs & _ & Hl).
  eexists; split; [exact Hl|].
  pose proof (patterns_never_empty ty pats p Hitem Hp) as Hne.
  unfold never_empty in Hne. rewrite Hr in Hne.
  pose proof (matches_consumes _ _ _ _ Hm Hne) as Hab.
  destruct (finditer_total p text r Hr) as [ms Hms].
  destruct (finditer_cover p text r ms a b Hr Hms Hm Hab) as (mt & Hmt & Hcov).
  pose proof (candidate_of_match text cs ty pats p ms mt Hcs Hitem Hp Hms Hmt)
    as Hc.
  destruct (returned_for_candidate cs _ Hc) as (e & He & Hk).
  exists e; split; [exact He|].
  unfold key in Hk. simpl in Hk. injection Hk as _ -> ->. exact Hcov.
Qed.

(** ** Free-standing technology terms *)

Lemma technology_terms_ok :
  forallb (fun w => existsb (fun p => term_ok p w) technology_patterns)
          technology_terms = true.
Proof. vm_compute. reflexivity. Qed.

Lemma cset_word_sound {DB : CharDB} s w x :
  word_faithful DB ->
  cset_word s = Some w -> cset_match s x = true -> isword x = w.
Proof.
  intros [Hlit Hdig]. destruct s as [|it [|]]; simpl; try discriminate.
  rewrite orb_false_r. destruct it as [c| | |]; simpl; try discriminate.
  - destruct (c <? 128)%N eqn:Hc; [|discriminate].
    intros [= <-] Hm. apply Hlit; [apply N.ltb_lt; exact Hc|exact Hm].
  - intros [= <-] Hm. apply Hdig. exact Hm.
Qed.

Lemma nth_repeat_lt {A : Type} (w d : A) c k :
  k < c -> nth k (repeat w c) d = w.
Proof.
  revert k; induction c as [|c IH]; intros [|k] Hk; simpl; try lia; auto.
  apply IH. lia.
Qed.

(** A match has one of the shapes of its regex. *)
Lemma matches_profile {DB : CharDB} text r i j :
  word_faithful DB ->
  matches text r i j ->
  forall P, profiles r = Some P ->
    exists pi, In pi P /\ j = i + length pi /\
      forall k, k < length pi -> word_at text (i + k) = nth k pi false.
Proof.
  intros HW.
  induction 1 as [i|s i x Hx Hs|i Hb|r1 r2 i j j' _ IH1 _ IH2|r1 r2 i j _ IH
                 |r1 r2 i j _ IH|r i j _ IH|s lo hi i c Hlo Hhi Hall];
    intros P; simpl.
  - intros [= <-]. exists []; simpl; repeat split; auto; lia.
  - destruct (cset_word s) as [w|] eqn:Hw; [|discriminate].
    intros [= <-]. exists [w]; simpl; repeat split; auto; [lia|].
    intros [|k] Hk; [|lia]. unfold word_at. rewrite Nat.add_0_r, Hx.
    eapply cset_word_sound; eauto.
  - intros [= <-]. exists []; simpl; repeat split; auto; lia.
  - destruct (profiles r1) as [P1|]; [|discriminate].
    destruct (profiles r2) as [P2|]; [|discriminate].
    intros [= <-].
    destruct (IH1 P1 eq_refl) as (p1 & Hp1 & -> & Hw1).
    destruct (IH2 P2 eq_refl) as (p2 & Hp2 & -> & Hw2).
    exists (p1 ++ p2); repeat split.
    + apply in_flat_map. exists p1; split; [exact Hp1|].
      apply in_map. exact Hp2.
    + rewrite length_app. lia.
    + intros k Hk. rewrite length_app in Hk.
      destruct (le_lt_dec (length p1) k) as [Hge|Hlt].
      * rewrite app_nth2 by exact Hge. rewrite <- Hw2 by lia.
        f_equal. lia.
      * rewrite app_nth1 by exact Hlt. apply Hw1. exact Hlt.
  - destruct (profiles r1) as [P1|]; [|discriminate].
    destruct (profiles r2) as [P2|]; [|discriminate].
    intros [= <-]. destruct (IH P1 eq_refl) as (p1 & Hp1 & Hj & Hw1).
    exists p1; repeat split; auto. apply in_or_app; auto.
  - destruct (profiles r1) as [P1|]; [|discriminate].
    destruct (profiles r2) as [P2|]; [|discriminate].
    intros [= <-]. destruct (IH P2 eq_refl) as (p2 & Hp2 & Hj & Hw2).
    exists p2; repeat split; auto. apply in_or_app; auto.
  - apply IH.
  - destruct hi as [h|]; [|discriminate].
    destruct (cset_word s) as [w|] eqn:Hw; [|discriminate].
    intros [= <-]. exists (repeat w c).
    rewrite repeat_length. repeat split.
    + apply in_map. apply in_seq. specialize (Hhi h eq_refl). lia.
    + intros k Hk. rewrite nth_repeat_lt by exact Hk.
      destruct (Hall k Hk) as (x & Hx & Hs).
      unfold word_at. rewrite Hx. eapply cset_word_sound; eauto.
Qed.

Lemma at_boundary_S {DB : CharDB} text j :
  at_boundary text (S j) = xorb (word_at text j) (word_at text (S j)).
Proof. reflexivity. Qed.

(** A whole word of the text that a match overlaps is the match itself,
    when the shape of the match allows no other whole word of that
    length. *)
Lemma whole_word_exact {DB : CharDB} text pi n s a :
  exact_in n pi = true -> 0 < n ->
  (forall k, k < length pi -> word_at text (s + k) = nth k pi false) ->
  at_boundary text (s + length pi) = true ->
  at_boundary text a = true -> at_boundary text (a + n) = true ->
  (forall k, k < n -> word_at text (a + k) = true) ->
  s <= a < s + length pi ->
  s = a /\ s + length pi = a + n.
Proof.
  intros Hex Hn Hpi Hbe Hba Hbb Hword Hcov.
  assert (Hfit : a + n <= s + length pi).
  { destruct (le_lt_dec (a + n) (s + length pi)) as [|Hlt]; [assumption|].
    exfalso. destruct (s + length pi) as [|e'] eqn:He; [lia|].
    rewrite at_boundary_S in Hbe.
    replace e' with (a + (e' - a)) in Hbe at 1 by lia.
    replace (S e') with (a + (S e' - a)) in Hbe by lia.
    rewrite !Hword in Hbe by lia. discriminate. }
  unfold exact_in in Hex. rewrite forallb_forall in Hex.
  specialize (Hex (a - s)).
  assert (Hww : whole_word pi (a - s) (a - s + n) = true).
  { unfold whole_word. repeat (apply andb_true_intro; split).
    - apply Nat.leb_le. lia.
    - apply forallb_forall. intros k Hk. apply in_seq in Hk.
      rewrite <- Hpi by lia.
      replace (s + k) with (a + (k - (a - s))) by lia. apply Hword. lia.
    - destruct (a - s) as [|d] eqn:Hd; [reflexivity|].
      simpl. rewrite Nat.sub_0_r. rewrite <- Hpi by lia.
      destruct a as [|a']; [lia|].
      rewrite at_boundary_S in Hba.
      replace (S a') with (S a' + 0) in Hba by lia.
      rewrite Hword in Hba by lia.
      replace (s + d) with a' by lia.
      destruct (word_at text a'); [discriminate|reflexivity].
    - destruct (a - s + n =? length pi) eqn:Hend; [reflexivity|].
      apply Nat.eqb_neq in Hend. simpl. rewrite <- Hpi by lia.
      replace (s + (a - s + n)) with (a + n) by lia.
      destruct (a + n) as [|b'] eqn:Hb; [lia|].
      rewrite at_boundary_S in Hbb.
      replace b' with (a + (n - 1)) in Hbb at 1 by lia.
      rewrite Hword in Hbb by lia.
      destruct (word_at text (S b')); [discriminate|reflexivity]. }
  rewrite Hww in Hex. simpl in Hex.
  assert (Hin : In (a - s) (seq 0 (S (length pi)))) by (apply in_seq; lia).
  apply Hex in Hin. apply andb_prop in Hin as [H0 H1].
  apply Nat.eqb_eq in H0, H1. lia.
Qed.

Lemma seq_of_cons x y l : seq_of (x :: y :: l) = Cat x (seq_of (y :: l)).
Proof.
  unfold seq_of. simpl rev.
  destruct (rev l ++ [y]) as [|last before] eqn:Hrev.
  - destruct (rev l); discriminate.
  - simpl. rewrite fold_left_app. reflexivity.
Qed.

Lemma seq_of_one x : seq_of [x] = x.
Proof. reflexivity. Qed.

(** Text that spells [w], case ignored, matches the literal regex of
    [w]. *)
Lemma matches_lit {DB : CharDB} text (w : str) : forall a,
  w <> [] ->
  (forall k c, w !! k = Some c ->
     exists y, text !! (a + k) = Some y /\ lit_ignore c y = true) ->
  matches text (lit w) a (a + length w).
Proof.
  induction w as [|c w IH]; intros a Hne Hall; [congruence|].
  destruct (Hall 0 c eq_refl) as (y & Hy & Hc). rewrite Nat.add_0_r in Hy.
  assert (Hchr : matches text (Chr [CLit c]) a (S a)).
  { econstructor; [exact Hy|]. simpl. rewrite Hc. reflexivity. }
  destruct w as [|c' w'].
  - unfold lit. simpl List.map. rewrite seq_of_one.
    replace (a + length [c]) with (S a) by (simpl; lia). exact Hchr.
  - unfold lit. simpl List.map. rewrite seq_of_cons.
    econstructor; [exact Hchr|].
    replace (a + length (c :: c' :: w')) with (S a + length (c' :: w'))
      by (simpl; lia).
    apply IH; [discriminate|].
    intros k d Hk. destruct (Hall (S k) d Hk) as (z & Hz & Hd).
    exists z; split; [|exact Hd]. rewrite <- Hz. f_equal. lia.
Qed.

Lemma alternatives_matches {DB : CharDB} text A r' i j :
  In r' (alternatives A) -> matches text r' i j -> matches text A i j.
Proof.
  induction A as [|s| |r1 _ r2 _|r1 _ r2 IH2|r _|s lo hi]; simpl;
    try (intros [<-|[]] Hm; exact Hm).
  intros [<-|Hin] Hm.
  - apply M_alt_l. exact Hm.
  - apply M_alt_r. apply IH2; assumption.
Qed.

Lemma body_of_shape r A :
  body_of r = Some A -> r = Cat Bound (Cat (Group A) Bound).
Proof.
  destruct r as [| | |r1 r2| | |]; try discriminate.
  destruct r1; try discriminate.
  destruct r2 as [| | |r3 r4| | |]; try discriminate.
  destruct r3; try discriminate.
  destruct r4; try discriminate.
  simpl. intros [= ->]. reflexivity.
Qed.

Lemma offers_matches {DB : CharDB} text r w a b :
  offers r w = true ->
  at_boundary text a = true -> at_boundary text b = true ->
  matches text (lit w) a b -> matches text r a b.
Proof.
  unfold offers. destruct (body_of r) as [A|] eqn:HA; [|discriminate].
  apply body_of_shape in HA as ->. intros Hin Ha Hb Hm.
  apply bool_decide_eq_true_1, list_elem_of_In in Hin.
  repeat econstructor; eauto using alternatives_matches.
Qed.

Lemma ci_occurs_reads {DB : CharDB} text a w :
  ci_occurs text a w ->
  forall k c, py w !! k = Some c ->
    exists y, text !! (a + k) = Some y /\ lit_ignore c y = true.
Proof.
  unfold ci_occurs. intros Hci k c Hk.
  destruct (Forall2_lookup_l _ _ _ _ _ Hci Hk) as (y & Hy & Hc).
  exists y; split; [|exact Hc].
  rewrite (slice_lookup text _ a (a + String.length w) k eq_refl); [exact Hy|].
  apply lookup_lt_Some in Hy. exact Hy.
Qed.

Lemma py_length w : length (py w) = String.length w.
Proof.
  unfold py. rewrite length_map.
  induction w as [|c w IH]; simpl; [reflexivity|]. f_equal. exact IH.
Qed.

Lemma ascii_isword_lt c : ascii_isword c = true -> (c < 128)%N.
Proof.
  unfold ascii_isword, ascii_isdigit, ascii_isupper, ascii_islower, in_range.
  intros H.
  repeat (apply orb_prop in H as [H|H]);
    try (apply andb_prop in H as [_ H]; apply N.leb_le in H; lia).
  apply N.eqb_eq in H. lia.
Qed.

Lemma find_exists {A : Type} (f : A -> bool) l x :
  In x l -> f x = true -> exists y, List.find f l = Some y.
Proof.
  induction l as [|a l IH]; simpl; [intros []|].
  intros [->|Hin] Hx.
  - rewrite Hx. eauto.
  - destruct (f a); eauto.
Qed.

(** The candidates of the technology patterns come first. *)
Lemma candidates_technology_first {DB : CharDB} text cs :
  candidates text = Ok cs ->
  exists tech rest,
    gather (pattern_candidates text TECHNOLOGY) technology_patterns = Ok tech /\
    cs = tech ++ rest.
Proof.
  unfold candidates.
  change PATTERNS with ((TECHNOLOGY, technology_patterns) :: tl PATTERNS).
  cbn [gather fst snd].
  destruct (gather (pattern_candidates text TECHNOLOGY) technology_patterns)
    as [tech| |]; cbn [bind]; try discriminate.
  destruct (gather _ (tl PATTERNS)) as [rest| |]; cbn [bind]; try discriminate.
  intros [= <-]. eauto.
Qed.

(** A match of a technology pattern is returned as a technology
    entity: whatever else has the same span was scanned later. *)
Lemma technology_match_returned {DB : CharDB} text cs p ms mt :
  candidates text = Ok cs -> In p technology_patterns ->
  finditer p text = Ok ms -> In mt ms ->
  In {| name := slice text (m_start mt) (m_end mt);
        entity_type := "technology";
        start := m_start mt;
        end_ := m_end mt;
        confidence := 0.8 |} (sort_by_start (recorded cs)).
Proof.
  intros Hcs Hp Hms Hmt.
  destruct (candidates_technology_first text cs Hcs) as (tech & rest & Htech & ->).
  assert (Hc : In (entity_of TECHNOLOGY mt) tech).
  { eapply (gather_intro _ _ _ p); [exact Htech|exact Hp| |].
    - unfold pattern_candidates. rewrite Hms. reflexivity.
    - apply in_map. exact Hmt. }
  set (c := entity_of TECHNOLOGY mt) in *.
  destruct (find_exists (has_key (key c)) tech c Hc) as [e' He'].
  { unfold has_key. apply bool_decide_eq_true_2. reflexivity. }
  destruct (returned_for_candidate (tech ++ rest) c) as (e & Hin & Hk);
    [apply in_or_app; left; exact Hc|].
  destruct (record_invariant (tech ++ rest)) as (_ & _ & Hfirst & _).
  pose proof Hin as Hrec.
  eapply Permutation_in in Hrec; [|apply sort_by_start_perm].
  apply Hfirst in Hrec. rewrite Hk, (find_app_l _ _ _ _ He') in Hrec.
  injection Hrec as ->.
  apply find_some in He' as [He'in He'key].
  unfold has_key in He'key. apply bool_decide_eq_true_1 in He'key.
  destruct (gather_In _ _ _ _ Htech He'in) as (p' & es & Hp' & Hes & Hee).
  unfold pattern_candidates in Hes.
  destruct (finditer p' text) as [ms'| |] eqn:Hms'; cbn [bind] in Hes;
    try discriminate.
  injection Hes as <-. apply in_map_iff in Hee as (mt' & <- & Hmt').
  apply finditer_sound in Hms' as (r' & _ & Hall').
  rewrite List.Forall_forall in Hall'.
  destruct (Hall' mt' Hmt') as (Hstr' & _ & _).
  unfold key, c in He'key. simpl in He'key.
  injection He'key as _ Hs' He''.
  replace {| name := slice text (m_start mt) (m_end mt);
             entity_type := "technology";
             start := m_start mt; end_ := m_end mt; confidence := 0.8 |}
    with (entity_of TECHNOLOGY mt'); [exact Hin|].
  unfold entity_of, group0. simpl.
  rewrite Hstr', Hs', He''. reflexivity.
Qed.

(** X6. A technology term that stands free in the text, in any letter
    case, is returned: for each single-word term of the technology
    patterns, wherever the text spells it between two word boundaries,
    the result has the entity with exactly that span, the text's own
    spelling as name, and type "technology". *)
Theorem free_standing_term_found (DB : CharDB) (text : str) (a : nat) (w : string) :
  word_faithful DB ->
  In w technology_terms ->
  ci_occurs text a w ->
  at_boundary text a = true ->
  at_boundary text (a + String.length w) = true ->
  exists l, extract_entities text = Ok l /\
    In {| name := slice text a (a + String.length w);
          entity_type := "technology";
          start := a;
          end_ := a + String.length w;
          confidence := 0.8 |} l.
Proof.
  intros HW Hw Hci Ha Hb.
  destruct (extract_entities_run text) as (cs & Hcs & _ & Hl).
  eexists; split; [exact Hl|].
  (* the pattern that offers [w] *)
  pose proof technology_terms_ok as Hok.
  rewrite forallb_forall in Hok. specialize (Hok w Hw).
  apply existsb_exists in Hok as (p & Hp & Hok).
  assert (Hitem : In (TECHNOLOGY, technology_patterns) PATTERNS)
    by (left; reflexivity).
  unfold term_ok in Hok.
  destruct (re_compile p) as [r| |] eqn:Hr; try discriminate.
  destruct (profiles r) as [P|] eqn:HP; try discriminate.
  apply andb_prop in Hok as [Hok Hlen]. apply Nat.ltb_lt in Hlen.
  apply andb_prop in Hok as [Hok Hword].
  apply andb_prop in Hok as [Hoff Hex].
  set (n := String.length w) in *.
  (* the occurrence is a match of [p], made of word characters *)
  pose proof (ci_occurs_reads text a w Hci) as Hreads.
  assert (Hm : matches text r a (a + n)).
  { apply (offers_matches text r (py w)); auto.
    unfold n. rewrite <- (py_length w). apply matches_lit; [|exact Hreads].
    intros Hnil. apply (f_equal length) in Hnil.
    rewrite py_length in Hnil. simpl in Hnil. lia. }
  assert (Hchars : forall k, k < n -> word_at text (a + k) = true).
  { intros k Hk. destruct (lookup_lt_is_Some_2 (py w) k) as [c Hc];
      [rewrite py_length; exact Hk|].
    destruct (Hreads k c Hc) as (y & Hy & Hcy).
    rewrite forallb_forall in Hword.
    assert (Hcw : ascii_isword c = true).
    { apply Hword. apply list_elem_of_In. eapply list_elem_of_lookup_2. exact Hc. }
    unfold word_at. rewrite Hy. destruct HW as [Hlit _].
    rewrite (Hlit c y (ascii_isword_lt c Hcw) Hcy). exact Hcw. }
  (* [finditer] yields a span over [a]; it is the occurrence itself *)
  destruct (finditer_total p text r Hr) as [ms Hms].
  assert (Hab : a < a + n) by lia.
  destruct (finditer_cover p text r ms a (a + n) Hr Hms Hm Hab)
    as (mt & Hmt & Hcov).
  pose proof Hms as Hsound.
  apply finditer_sound in Hsound as (r' & Hr' & Hall).
  rewrite Hr in Hr'. injection Hr' as <-.
  rewrite List.Forall_forall in Hall.
  destruct (Hall mt Hmt) as (Hstr & Hmm & _).
  pose proof (patterns_anchored _ _ p Hitem Hp) as Hanch.
  unfold anchored in Hanch. rewrite Hr in Hanch.
  apply andb_prop in Hanch as [_ Hends].
  pose proof (matches_ends_bound text r _ _ Hmm Hends) as Hbe.
  destruct (matches_profile text r _ _ HW Hmm P HP) as (pi & Hpi & Hend & Hshape).
  unfold exact_len in Hex. rewrite forallb_forall in Hex.
  rewrite Hend in Hbe, Hcov.
  destruct (whole_word_exact text pi n (m_start mt) a (Hex pi Hpi) Hlen Hshape
              Hbe Ha Hb Hchars Hcov) as [Hs He].
  rewrite <- Hend in He.
  (* and a match of a technology pattern is returned as such *)
  pose proof (technology_match_returned text cs p ms mt Hcs Hp Hms Hmt) as Hin.
  rewrite Hs, He in Hin. exact Hin.
Qed.

Lemma ascii_isword_tolower x : ascii_isword (ascii_tolower x) = ascii_isword x.
Proof.
  unfold ascii_tolower. destruct (ascii_isupper x) eqn:Hu; [|reflexivity].
  unfold ascii_isword. rewrite Hu.
  unfold ascii_isupper, in_range in Hu. apply andb_prop in Hu as [H1 H2].
  apply N.leb_le in H1, H2.
  assert (Hl : ascii_islower (x + 32) = true).
  { unfold ascii_islower, in_range.
    apply andb_true_intro; split; apply N.leb_le; lia. }
  rewrite Hl. rewrite !orb_true_r. reflexivity.
Qed.

(** The ASCII database is faithful in the sense above. *)
Lemma AsciiDB_word_faithful : word_faithful AsciiDB.
Proof.
  split; simpl.
  - intros c x _ Hcx. apply N.eqb_eq in Hcx.
    rewrite <- (ascii_isword_tolower x), <- Hcx. apply ascii_isword_tolower.
  - intros x Hx. unfold ascii_isword. rewrite Hx. reflexivity.
Qed.

Lemma extract_entities_covers_witness :
  exists l, extract_entities (py "We use Python") = Ok l /\
    exists e, In e l /\ start e <= 7 < end_ e.
Proof.
  set (text := py "We use Python").
  set (p := "\b(Python|Rust|JavaScript|TypeScript|Go|Java|C\+\+|Ruby|Swift|Kotlin)\b"%string).
  destruct (re_compile p) as [r| |] eqn:Hr;
    try (vm_compute in Hr; discriminate Hr).
  assert (Hrun : m text r 7 (fun e => if e =? 13 then Some e else None) = Some 13).
  { vm_compute in Hr. injection Hr as <-. vm_compute. reflexivity. }
  destruct (m_sound text r 7 _ 13 Hrun) as (j & Hj & Hk).
  destruct (j =? 13) eqn:Hj13; [|discriminate Hk]. injection Hk as ->.
  apply (extract_entities_covers AsciiDB text TECHNOLOGY technology_patterns
           p r 7 13); auto.
  - left; reflexivity.
  - left; reflexivity.
Defined.

Lemma free_standing_term_found_witness :
  exists l, extract_entities (py "PYTHON and python are the same") = Ok l /\
    In (entity "python" TECHNOLOGY 11 17) l.
Proof.
  apply (free_standing_term_found AsciiDB
           (py "PYTHON and python are the same") 11 "Python").
  - exact AsciiDB_word_faithful.
  - left; reflexivity.
  - unfold ci_occurs. vm_compute. repeat constructor.
  - vm_compute. reflexivity.
  - vm_compute. reflexivity.
Defined.

(** * The request handlers *)

Lemma EntityModel_round_trip vm (e : ExtractedEntity) :
  EntityModel_of_dict vm (to_dict e) = Ok (to_model e).
Proof.
  unfold EntityModel_of_dict, to_dict. simplify_map_eq. reflexivity.
Qed.

Lemma map_result_round_trip vm (l : list ExtractedEntity) :
  map_result (EntityModel_of_dict vm) (List.map to_dict l)
  = Ok (List.map to_model l).
Proof.
  induction l as [|e l IH]; simpl; [reflexivity|].
  rewrite EntityModel_round_trip, IH. reflexivity.
Qed.

(** X7. [POST /extract-entities] never fails: for every text the
    handler answers with the entities of [extract_entities], one model
    per entity, in the same order and with the same five field values,
    and [count] is their number.  The dicts of [extract_entities_dict]
    lose nothing on the way. *)
Theorem server_extract_entities_total (DB : CharDB)
    (validation_message : gmap string pyval -> string) (text : str) :
  exists l,
    extract_entities text = Ok l /\
    extract_entities_dict text = Ok (List.map to_dict l) /\
    server_extract_entities validation_message text
    = Ok {| ee_entities := List.map to_model l; ee_count := length l |}.
Proof.
  destruct (extract_entities_run text) as (cs & _ & _ & Hl).
  eexists; split; [exact Hl|].
  assert (Hd : extract_entities_dict text
               = Ok (List.map to_dict (sort_by_start (recorded cs)))).
  { unfold extract_entities_dict. rewrite Hl. reflexivity. }
  split; [exact Hd|].
  unfold server_extract_entities. rewrite Hd. cbn [bind].
  rewrite map_result_round_trip. cbn [bind]. rewrite length_map. reflexivity.
Qed.

Section HandlerFacts.
Variable Model : Type.
Variable SentenceTransformer : string -> result Model.
Variable encode : Model -> list str -> result (list (list float)).
Variable get_sentence_embedding_dimension : Model -> Z.

Abbreviation get_model' := (get_model Model SentenceTransformer).
Abbreviation generate_embeddings' :=
  (generate_embeddings Model SentenceTransformer encode).
Abbreviation health' :=
  (health Model SentenceTransformer get_sentence_embedding_dimension).
Abbreviation serve' :=
  (serve Model SentenceTransformer encode get_sentence_embedding_dimension).
Abbreviation ok := (world_ok SentenceTransformer).


Lemma get_model_ok w :
  ok w ->
  ok (get_model' w).2 /\
  match (get_model' w).1 with
  | Ok mdl => SentenceTransformer MODEL_NAME = Ok mdl /\
              _model (get_model' w).2 = Some mdl
  | _ => forall mdl, SentenceTransformer MODEL_NAME <> Ok mdl
  end.
Proof.
  unfold world_ok, get_model.
  destruct (SentenceTransformer MODEL_NAME) as [mdl|e|why] eqn:HST.
  - intros [[Hm Hc]|[Hm (rest & Hc & Hrest)]]; rewrite Hm; simpl.
    + split; [|auto]. right. split; [reflexivity|].
      exists []. rewrite Hc. auto.
    + split; [|auto]. right. split; [exact Hm|]. exists rest; auto.
  - intros [Hm Hc]. rewrite Hm. simpl. split; [|discriminate].
    split; [exact Hm|]. apply Forall_app; split; [exact Hc|].
    constructor; [reflexivity|constructor].
  - intros [Hm Hc]. rewrite Hm. simpl. split; [|discriminate].
    split; [exact Hm|]. apply Forall_app; split; [exact Hc|].
    constructor; [reflexivity|constructor].
Qed.

Lemma called_encode_ok w mdl texts :
  SentenceTransformer MODEL_NAME = Ok mdl -> _model w = Some mdl ->
  ok w -> ok (called Model (Encode texts) w).
Proof.
  unfold world_ok. intros -> Hm [[Hn _]|[_ (rest & Hc & Hrest)]];
    [congruence|].
  right. simpl. split; [exact Hm|].
  exists (rest ++ [Encode texts]). rewrite Hc. split; [reflexivity|].
  rewrite forallb_app, Hrest. reflexivity.
Qed.

Lemma generate_embeddings_ok texts w :
  ok w -> ok (generate_embeddings' texts w).2.
Proof.
  intros Hw. unfold generate_embeddings.
  destruct texts as [|t texts]; [exact Hw|].
  destruct (get_model_ok w Hw) as [Hok Hres].
  destruct (get_model' w) as [[mdl|e|why] w1]; simpl in *; auto.
  destruct Hres as [HST Hm]. eapply called_encode_ok; eauto.
Qed.

Lemma serve_ok w rq : ok w -> ok (serve' w rq).
Proof.
  intros Hw. destruct rq as [| |texts|text]; simpl.
  - unfold lifespan_startup.
    pose proof (get_model_ok w Hw) as [Hok _].
    destruct (get_model' w) as [r w1]. exact Hok.
  - unfold health, get_embedding_dimension.
    pose proof (get_model_ok w Hw) as [Hok _].
    destruct (get_model' w) as [[mdl|e|why] w1]; exact Hok.
  - unfold embed.
    pose proof (generate_embeddings_ok texts w Hw) as Hok.
    destruct (generate_embeddings' texts w) as [[embs|e|why] w1]; exact Hok.
  - exact Hw.
Qed.

Lemma run_ok rqs : forall w, ok w -> ok (fold_left serve' rqs w).
Proof.
  induction rqs as [|rq rqs IH]; intros w Hw; simpl; [exact Hw|].
  apply IH, serve_ok, Hw.
Qed.

Lemma fresh_ok : ok (fresh Model).
Proof.
  unfold world_ok, fresh. simpl.
  destruct (SentenceTransformer MODEL_NAME); auto.
Qed.


End HandlerFacts.

Lemma loads_of_encodes rest : forallb is_encode rest = true -> loads rest = [].
Proof.
  induction rest as [|c rest IH]; simpl; [reflexivity|].
  intros H. apply andb_prop in H as [Hc Hrest]. rewrite Hc. simpl. auto.
Qed.

(** X8. The model is a lazy singleton.  In the world reached from a
    fresh process by any sequence of requests (startup hook, /health,
    /embed, /extract-entities, in any order and number): the only model
    ever constructed is [MODEL_NAME]; if its constructor succeeds it is
    called at most once and [_model] is either unset or that one model;
    [encode] is only ever called after a successful construction, which
    is then the first library call; and if the constructor fails,
    [_model] stays unset. *)
Theorem model_built_at_most_once
    (Model : Type) (SentenceTransformer : string -> result Model)
    (encode : Model -> list str -> result (list (list float)))
    (get_sentence_embedding_dimension : Model -> Z)
    (rqs : list request) :
  let w := fold_left
             (serve Model SentenceTransformer encode
                    get_sentence_embedding_dimension)
             rqs (fresh Model) in
  (forall model_name, In (Load model_name) (calls w) -> model_name = MODEL_NAME) /\
  (forall mdl, SentenceTransformer MODEL_NAME = Ok mdl ->
     length (loads (calls w)) <= 1 /\
     (_model w = None \/ _model w = Some mdl)) /\
  (forall texts, In (Encode texts) (calls w) ->
     exists mdl rest,
       SentenceTransformer MODEL_NAME = Ok mdl /\ _model w = Some mdl /\
       calls w = Load MODEL_NAME :: rest) /\
  ((forall mdl, SentenceTransformer MODEL_NAME <> Ok mdl) -> _model w = None).
Proof.
  intros w.
  pose proof (run_ok Model SentenceTransformer encode
                get_sentence_embedding_dimension rqs (fresh Model)
                (fresh_ok Model SentenceTransformer)) as Hok.
  fold w in Hok. unfold world_ok in Hok.
  destruct (SentenceTransformer MODEL_NAME) as [mdl|e|why] eqn:HST.
  - destruct Hok as [[Hm Hc]|[Hm (rest & Hc & Hrest)]]; rewrite Hc.
    + split; [intros name []|]. split; [|split].
      * intros mdl' _. simpl. split; [lia|left; exact Hm].
      * intros texts [].
      * intros _. exact Hm.
    + split; [|split; [|split]].
      * intros name [[= <-]|Hin]; [reflexivity|].
        rewrite forallb_forall in Hrest. apply Hrest in Hin. discriminate.
      * intros mdl' [= <-]. simpl. rewrite (loads_of_encodes rest Hrest).
        split; [simpl; lia|right; exact Hm].
      * intros texts _. exists mdl, rest. auto.
      * intros Hno. exfalso. apply (Hno mdl). reflexivity.
  - destruct Hok as [Hm Hc]. rewrite List.Forall_forall in Hc.
    split; [|split; [|split]].
    + intros name Hin. apply Hc in Hin. injection Hin as ->. reflexivity.
    + intros mdl' [=].
    + intros texts Hin. apply Hc in Hin. discriminate.
    + intros _. exact Hm.
  - destruct Hok as [Hm Hc]. rewrite List.Forall_forall in Hc.
    split; [|split; [|split]].
    + intros name Hin. apply Hc in Hin. injection Hin as ->. reflexivity.
    + intros mdl' [=].
    + intros texts Hin. apply Hc in Hin. discriminate.
    + intros _. exact Hm.
Qed.


(** X10. A failed load is not remembered.  If constructing the model
    raises [e0], then in the world reached from a fresh process by any
    sequence of requests, the startup hook raises [e0], [/health]
    raises HTTP 503 and [/embed] on a non-empty list raises HTTP 500,
    both with [str(e0)] as detail; each of them calls the constructor
    once more, and [encode] is not called. *)
Theorem failed_load_is_retried
    (Model : Type) (SentenceTransformer : string -> result Model)
    (encode : Model -> list str -> result (list (list float)))
    (get_sentence_embedding_dimension : Model -> Z)
    (e0 : exn) (rqs : list request) :
  SentenceTransformer MODEL_NAME = Raise e0 ->
  let w := fold_left
             (serve Model SentenceTransformer encode
                    get_sentence_embedding_dimension)
             rqs (fresh Model) in
  lifespan_startup Model SentenceTransformer w
  = (Raise e0, called Model (Load MODEL_NAME) w) /\
  health Model SentenceTransformer get_sentence_embedding_dimension w
  = (Raise (HTTPException 503 (exn_str e0)), called Model (Load MODEL_NAME) w) /\
  forall texts, texts <> [] ->
    embed Model SentenceTransformer encode texts w
    = (Raise (HTTPException 500 (exn_str e0)), called Model (Load MODEL_NAME) w).
Proof.
  intros HST w.
  pose proof (run_ok Model SentenceTransformer encode
                get_sentence_embedding_dimension rqs (fresh Model)
                (fresh_ok Model SentenceTransformer)) as Hok.
  fold w in Hok. unfold world_ok in Hok. rewrite HST in Hok.
  destruct Hok as [Hm _].
  assert (Hget : get_model Model SentenceTransformer w
                 = (Raise e0, called Model (Load MODEL_NAME) w)).
  { unfold get_model. rewrite Hm, HST. reflexivity. }
  split; [|split].
  - unfold lifespan_startup. rewrite Hget. reflexivity.
  - unfold health, get_embedding_dimension. rewrite Hget. reflexivity.
  - intros [|t texts] Hne; [congruence|].
    unfold embed, generate_embeddings. rewrite Hget. reflexivity.
Qed.

(** ** Concrete runs of the further properties *)

Lemma extract_entities_confidence_witness :
  let text := py "Python is great" in
  let e := entity "Python" TECHNOLOGY 0 6 in
  extract_entities text = Ok [e] /\ confidence e = 0.8%float.
Proof.
  intros text e.
  assert (Hrun : extract_entities text = Ok [e]) by (vm_compute; reflexivity).
  split; [exact Hrun|].
  destruct (extract_entities_confidence AsciiDB text) as (l & Hl & H).
  rewrite Hrun in Hl. injection Hl as <-. apply (H e). left; reflexivity.
Defined.

Lemma extract_entities_nonempty_span_witness :
  let text := py "Python is great" in
  let e := entity "Python" TECHNOLOGY 0 6 in
  extract_entities text = Ok [e] /\ start e < end_ e /\ name e <> [].
Proof.
  intros text e.
  assert (Hrun : extract_entities text = Ok [e]) by (vm_compute; reflexivity).
  split; [exact Hrun|].
  destruct (extract_entities_nonempty_span AsciiDB text) as (l & Hl & H).
  rewrite Hrun in Hl. injection Hl as <-. apply (H e). left; reflexivity.
Defined.

Lemma model_built_at_most_once_witness :
  let rqs := [GetHealth; PostEmbed [py "Hello world"]; Startup; GetHealth] in
  let w := fold_left (serve unit (fun _ => Ok tt) (fun _ _ => Ok [[]])
                            (fun _ => 768%Z))
                     rqs (fresh unit) in
  calls w = [Load MODEL_NAME; Encode [py "Hello world"]] /\
  length (loads (calls w)) <= 1.
Proof.
  intros rqs w. split; [reflexivity|].
  destruct (model_built_at_most_once unit (fun _ => Ok tt) (fun _ _ => Ok [[]])
              (fun _ => 768%Z) rqs) as (_ & Honce & _).
  apply (Honce tt). reflexivity.
Defined.


Lemma failed_load_is_retried_witness :
  let ST := fun _ : string => @Raise unit (library_error "no weights") in
  let w := fold_left (serve unit ST (fun _ _ => Ok [[]]) (fun _ => 768%Z))
                     [GetHealth; PostEmbed [py "Hello world"]] (fresh unit) in
  calls w = [Load MODEL_NAME; Load MODEL_NAME] /\
  health unit ST (fun _ => 768%Z) w
  = (Raise (HTTPException 503 "no weights"),
     called unit (Load MODEL_NAME) w).
Proof.
  intros ST w. split; [reflexivity|].
  apply (failed_load_is_retried unit ST (fun _ _ => Ok [[]]) (fun _ => 768%Z)
           (library_error "no weights")
           [GetHealth; PostEmbed [py "Hello world"]]).
  reflexivity.
Defined.

(** ** Free-standing phrases *)

Lemma technology_phrases_ok :
  forallb (fun w => existsb (fun p => phrase_ok p w) technology_patterns)
          technology_phrases = true.
Proof. vm_compute. reflexivity. Qed.

(** Where the text spells an ASCII term, it has the term's shape. *)
Lemma occurrence_shape {DB : CharDB} text a w :
  word_faithful DB -> ci_occurs text a w ->
  forallb (fun c => (c <? 128)%N) (py w) = true ->
  forall k, k < String.length w ->
    word_at text (a + k) = nth k (shape_of (py w)) false.
Proof.
  intros [Hlit _] Hci Hascii k Hk.
  destruct (lookup_lt_is_Some_2 (py w) k) as [c Hc];
    [rewrite py_length; exact Hk|].
  destruct (ci_occurs_reads text a w Hci k c Hc) as (y & Hy & Hcy).
  rewrite forallb_forall in Hascii.
  assert (Hc128 : (c <? 128)%N = true).
  { apply Hascii. apply list_elem_of_In. eapply list_elem_of_lookup_2. exact Hc. }
  apply N.ltb_lt in Hc128.
  unfold word_at. rewrite Hy, (Hlit c y Hc128 Hcy).
  unfold shape_of. rewrite (nth_indep _ false (ascii_isword 0%N)).
  - rewrite (map_nth ascii_isword). f_equal.
    symmetry. apply nth_lookup_Some with (d := 0%N) in Hc. exact Hc.
  - rewrite length_map, py_length. exact Hk.
Qed.

(** An occurrence that a match overlaps satisfies [aligned] at the
    offset where it begins. *)
Lemma aligned_sound {DB : CharDB} text sigma pi s a :
  0 < length sigma ->
  (forall k, k < length pi -> word_at text (s + k) = nth k pi false) ->
  (forall k, k < length sigma -> word_at text (a + k) = nth k sigma false) ->
  at_boundary text (s + length pi) = true ->
  at_boundary text a = true -> at_boundary text (a + length sigma) = true ->
  s <= a < s + length pi ->
  aligned sigma pi (a - s) = true.
Proof.
  intros Hn Hpi Hsig Hbe Hba Hbb Hcov.
  set (d := a - s). assert (Ha : a = s + d) by (unfold d; lia).
  unfold aligned. repeat (apply andb_true_intro; split).
  - apply forallb_forall. intros k Hk. apply in_seq in Hk.
    destruct (d + k <? length pi) eqn:Hdk; [|reflexivity].
    apply Nat.ltb_lt in Hdk. apply eqb_true_iff.
    rewrite <- Hsig by lia. rewrite <- Hpi by exact Hdk.
    f_equal. lia.
  - destruct (d =? 0) eqn:Hd0; [reflexivity|]. apply Nat.eqb_neq in Hd0.
    simpl. destruct a as [|a']; [lia|].
    rewrite at_boundary_S in Hba.
    rewrite <- Hpi by lia. rewrite <- (Hsig 0) by exact Hn.
    replace (s + (d - 1)) with a' by lia.
    replace (S a' + 0) with (S a') by lia. exact Hba.
  - destruct (length pi - d <? length sigma) eqn:Hin; [|reflexivity].
    apply Nat.ltb_lt in Hin.
    destruct (s + length pi) as [|e'] eqn:He; [lia|].
    rewrite at_boundary_S in Hbe.
    rewrite <- !Hsig by lia.
    replace (a + (length pi - d - 1)) with e' by lia.
    replace (a + (length pi - d)) with (S e') by lia. exact Hbe.
  - destruct (d + length sigma <? length pi) eqn:Hin; [|reflexivity].
    apply Nat.ltb_lt in Hin.
    destruct (a + length sigma) as [|b'] eqn:Hb; [lia|].
    rewrite at_boundary_S in Hbb.
    rewrite <- !Hpi by lia.
    replace (s + (d + length sigma - 1)) with b' by lia.
    replace (s + (d + length sigma)) with (S b') by lia. exact Hbb.
Qed.

(** X11. The technology terms that are not single words (C++, Next.js
    and scikit-learn) are found in the same way: wherever the text
    spells one, letter case ignored, between two word boundaries, the
    result has the technology entity with exactly that span.  (After
    the last '+' of C++ a word boundary means that a word character
    follows.) *)
Theorem free_standing_phrase_found (DB : CharDB) (text : str) (a : nat) (w : string) :
  word_faithful DB ->
  In w technology_phrases ->
  ci_occurs text a w ->
  at_boundary text a = true ->
  at_boundary text (a + String.length w) = true ->
  exists l, extract_entities text = Ok l /\
    In {| name := slice text a (a + String.length w);
          entity_type := "technology";
          start := a;
          end_ := a + String.length w;
          confidence := 0.8 |} l.
Proof.
  intros HW Hw Hci Ha Hb.
  destruct (extract_entities_run text) as (cs & Hcs & _ & Hl).
  eexists; split; [exact Hl|].
  pose proof technology_phrases_ok as Hok.
  rewrite forallb_forall in Hok. specialize (Hok w Hw).
  apply existsb_exists in Hok as (p & Hp & Hok).
  assert (Hitem : In (TECHNOLOGY, technology_patterns) PATTERNS)
    by (left; reflexivity).
  unfold phrase_ok in Hok.
  destruct (re_compile p) as [r| |] eqn:Hr; try discriminate.
  destruct (profiles r) as [P|] eqn:HP; try discriminate.
  apply andb_prop in Hok as [Hok Hlen]. apply Nat.ltb_lt in Hlen.
  apply andb_prop in Hok as [Hok Hascii].
  apply andb_prop in Hok as [Hoff Hex].
  set (n := String.length w) in *.
  assert (Hm : matches text r a (a + n)).
  { apply (offers_matches text r (py w)); auto.
    unfold n. rewrite <- (py_length w).
    apply matches_lit; [|exact (ci_occurs_reads text a w Hci)].
    intros Hnil. apply (f_equal length) in Hnil.
    rewrite py_length in Hnil. simpl in Hnil. lia. }
  pose proof (occurrence_shape text a w HW Hci Hascii) as Hshape.
  assert (Hsn : length (shape_of (py w)) = n)
    by (unfold shape_of; rewrite length_map; apply py_length).
  destruct (finditer_total p text r Hr) as [ms Hms].
  assert (Hab : a < a + n) by lia.
  destruct (finditer_cover p text r ms a (a + n) Hr Hms Hm Hab)
    as (mt & Hmt & Hcov).
  pose proof Hms as Hsound.
  apply finditer_sound in Hsound as (r' & Hr' & Hall).
  rewrite Hr in Hr'. injection Hr' as <-.
  rewrite List.Forall_forall in Hall.
  destruct (Hall mt Hmt) as (Hstr & Hmm & _).
  pose proof (patterns_anchored _ _ p Hitem Hp) as Hanch.
  unfold anchored in Hanch. rewrite Hr in Hanch.
  apply andb_prop in Hanch as [_ Hends].
  pose proof (matches_ends_bound text r _ _ Hmm Hends) as Hbe.
  destruct (matches_profile text r _ _ HW Hmm P HP) as (pi & Hpi & Hend & Hpshape).
  rewrite forallb_forall in Hex. specialize (Hex pi Hpi).
  rewrite Hend in Hbe, Hcov.
  assert (Hal : aligned (shape_of (py w)) pi (a - m_start mt) = true).
  { apply (aligned_sound text); rewrite ?Hsn; auto. }
  unfold exact_shape in Hex. rewrite forallb_forall in Hex.
  assert (Hd : In (a - m_start mt) (seq 0 (length pi))) by (apply in_seq; lia).
  apply Hex in Hd. rewrite Hal in Hd. simpl in Hd.
  apply andb_prop in Hd as [Hd0 Hdn].
  apply Nat.eqb_eq in Hd0, Hdn. rewrite Hsn in Hdn.
  pose proof (technology_match_returned text cs p ms mt Hcs Hp Hms Hmt) as Hin.
  replace (m_start mt) with a in Hin by lia.
  replace (m_end mt) with (a + n) in Hin by lia.
  exact Hin.
Qed.

Lemma free_standing_phrase_found_witness :
  exists l, extract_entities (py "written in c++x and more") = Ok l /\
    In (entity "c++" TECHNOLOGY 11 14) l.
Proof.
  apply (free_standing_phrase_found AsciiDB
           (py "written in c++x and more") 11 "C++").
  - exact AsciiDB_word_faithful.
  - left; reflexivity.
  - unfold ci_occurs. vm_compute. repeat constructor.
  - vm_compute. reflexivity.
  - vm_compute. reflexivity.
Defined.
